(** * useAutoScroll: the auto-scroll loop of box-annotations

    A shallow embedding of [src/common/useAutoScroll/useAutoScroll.tsx].

    The hook keeps five React refs, listens to document-level
    [mousemove]/[touchmove] events and polls, once per animation frame,
    whether the last pointer position lies in one of the four gutters of the
    scroll parent; if so it rewrites the parent's scroll offsets.

    Modelling decisions.
    - A JavaScript [number] is an exact rational ([Q]): the arithmetic of the
      definitions ([+], [-], [*], comparisons, [Math.round], [Math.min],
      [Math.max]) is the exact one, and [NaN] and the infinities are outside
      the model.  Equality of numbers is [Qeq].  The source computes in
      binary64, where a sum, a difference and a product are rounded.  The
      statements about edges, depths and deltas are therefore put in terms
      of what the code computes: a hypothesis on one of them is a
      hypothesis on that expression of the source, and the thresholds of
      the statements about rounding leave the margin that a rounded sum
      needs.  Where the two arithmetics differ, [Binary64] has the lines of
      the source over primitive floats.
    - Mutable cells ([useRef]) and the DOM are fields of one explicit
      [World]; the code is written in a small state-and-exception monad [JS]
      over it.
    - Functions created by a render ([checkScroll], [handleMouseMove],
      [handleTouchMove], the effect clean-up) are closures over that
      render's destructured options; a closure is represented by the
      [Scope] it closes over, and two listeners are the same function object
      exactly when they come from the same render.
    - Everything the hook does to its environment is appended to a [log], so
      that "writes", "invokes" and "cancels" are statements about the log.
    - [onScroll] is the caller's function: in [checkScroll] its call is
      recorded, and it is taken to return without re-entering the hook.
      [checkScrollCalling] is the same code with the behaviour of the call
      left open, for what a callback that throws, or that changes the
      world, does to a frame.
    - An assignment to [scrollLeft] or [scrollTop] is recorded in the log
      with the value assigned, and the element stores that value.  A browser
      limits the offset it stores further, to the scrollable range of the
      element; what a frame does to an offset is stated about the value it
      assigns.
    - React and the browser are modelled by what they document: an effect
      runs after the first render and when its dependency has changed, the
      clean-up of its last run first; [requestAnimationFrame] hands out
      increasing non-zero handles; an event goes to the listeners
      registered for its type.  A render and the commit of its effects are
      one event. *)

From Stdlib Require Import QArith Qround Qminmax Qabs Lqa ZArith List Bool Lia.
From Stdlib Require PrimFloat.
Import ListNotations.

Set Implicit Arguments.
Open Scope Q_scope.

(** ** JavaScript numbers *)

(** [x < y] and [x > y] of the source, as booleans. *)
Definition ltb (x y : Q) : bool := negb (Qle_bool y x).
Definition gtb (x y : Q) : bool := ltb y x.

Declare Scope js_scope.
Delimit Scope js_scope with js.
Infix "<?" := ltb (at level 70, no associativity) : js_scope.
Infix ">?" := gtb (at level 70, no associativity) : js_scope.

Module Math.
(** [Math.round]: the nearest integer, a tie going to the larger one. *)
Definition round (x : Q) : Q := inject_Z (Qfloor (x + (1 # 2))).
Definition min (x y : Q) : Q := Qmin x y.
Definition max (x y : Q) : Q := Qmax x y.
End Math.

(** ** The DOM objects the hook touches *)

Module DOMRect.
Record t : Type := { bottom : Q; left : Q; right : Q; top : Q }.
End DOMRect.

(** An [Element] is a mutable DOM object; the store maps its identity to its
    current state.  [boundingClientRect] is what [getBoundingClientRect()]
    returns now.  A value assigned to a scroll offset is stored as it is. *)
Definition ElemId := nat.

Record Element : Type := {
  scrollLeft : Q;
  scrollTop : Q;
  scrollWidth : Q;
  scrollHeight : Q;
  boundingClientRect : DOMRect.t
}.

Module MouseEvent.
Record t : Type := { clientX : Q; clientY : Q }.
End MouseEvent.

Module Touch.
Record t : Type := { clientX : Q; clientY : Q }.
End Touch.

Module TouchEvent.
Record t : Type := { targetTouches : list Touch.t }.
End TouchEvent.

Inductive EventType : Type := mousemove | touchmove.

Definition EventType_eqb (a b : EventType) : bool :=
  match a, b with
  | mousemove, mousemove | touchmove, touchmove => true
  | _, _ => false
  end.

(** ** Options and the scope of a render *)

(** The [onScroll] callback is the caller's; [noop] is lodash's. *)
Inductive Callback : Type := noop | callback (id : nat).

Module Options.
Record t : Type := {
  enabled : option bool;
  intensity : option Q;
  onScroll : option Callback;
  reference : option ElemId;
  size : option Q
}.
End Options.

(** What line 14 binds: the options with their defaults applied, together
    with the number of the render that created the closures. *)
Record Scope : Type := {
  render : nat;
  enabled : option bool;
  intensity : Q;
  onScroll : Callback;
  reference : option ElemId;
  size : Q
}.

Definition default {A : Type} (d : A) (o : option A) : A :=
  match o with Some a => a | None => d end.

Definition destructure (n : nat) (options : Options.t) : Scope :=
  {| render := n;
     enabled := Options.enabled options;
     intensity := default (2 # 10) (Options.intensity options);
     onScroll := default noop (Options.onScroll options);
     reference := Options.reference options;
     size := default 50 (Options.size options) |}.

(** ** The world *)

Inductive Effect : Type :=
| SetScrollLeft (el : ElemId) (v : Q)
| SetScrollTop (el : ElemId) (v : Q)
| OnScroll (f : Callback) (x y : Q)
| RequestAnimationFrame (handle : Z)
| CancelAnimationFrame (handle : Z)
| AddEventListener (type : EventType) (listener : nat)
| RemoveEventListener (type : EventType) (listener : nat)
| Uncaught.

Record Refs : Type := {
  handleRef : option Z;
  parentRef : option ElemId;
  parentRectRef : option DOMRect.t;
  positionXRef : option Q;
  positionYRef : option Q
}.

(** [window]'s animation-frame state: the last identifier handed out and the
    callbacks waiting for the next frame, oldest first. *)
Record Window : Type := {
  frameId : Z;
  frames : list (Z * Scope)
}.

(** What React remembers of the hook between renders: how many renders there
    were, the dependencies of the two effects at their last run, and the
    scope of the pending clean-up of the second effect. *)
Record Fiber : Type := {
  unmounted : bool;
  renders : nat;
  depsReference : option (option ElemId);
  depsEnabled : option (option bool);
  cleanup : option Scope
}.

Record World : Type := {
  elements : ElemId -> Element;
  refs : Refs;
  window : Window;
  listeners : list (EventType * nat);
  fiber : Fiber;
  log : list Effect
}.

Definition set_elements (f : ElemId -> Element) (w : World) : World :=
  {| elements := f; refs := refs w; window := window w;
     listeners := listeners w; fiber := fiber w; log := log w |}.
Definition set_refs (r : Refs) (w : World) : World :=
  {| elements := elements w; refs := r; window := window w;
     listeners := listeners w; fiber := fiber w; log := log w |}.
Definition set_window (x : Window) (w : World) : World :=
  {| elements := elements w; refs := refs w; window := x;
     listeners := listeners w; fiber := fiber w; log := log w |}.
Definition set_listeners (l : list (EventType * nat)) (w : World) : World :=
  {| elements := elements w; refs := refs w; window := window w;
     listeners := l; fiber := fiber w; log := log w |}.
Definition set_fiber (f : Fiber) (w : World) : World :=
  {| elements := elements w; refs := refs w; window := window w;
     listeners := listeners w; fiber := f; log := log w |}.
Definition set_log (l : list Effect) (w : World) : World :=
  {| elements := elements w; refs := refs w; window := window w;
     listeners := listeners w; fiber := fiber w; log := l |}.

(** ** The monad of the code: state, and a thrown [TypeError] *)

Inductive Error : Type := TypeError.

Inductive Completion (A : Type) : Type :=
| Normal (a : A) (w : World)
| Throw (e : Error) (w : World).
Arguments Throw {A} e w.

Definition JS (A : Type) : Type := World -> Completion A.

Definition ret {A : Type} (a : A) : JS A := fun w => Normal a w.
Definition throw {A : Type} (e : Error) : JS A := fun w => Throw e w.
Definition bind {A B : Type} (m : JS A) (k : A -> JS B) : JS B :=
  fun w => match m w with
           | Normal a w' => k a w'
           | Throw e w' => Throw e w'
           end.

Notation "x <- m ;; k" := (bind m (fun x => k))
  (at level 61, m at next level, right associativity).
Notation "m ;; k" := (bind m (fun _ => k))
  (at level 61, right associativity).

Definition gets {A : Type} (f : World -> A) : JS A := fun w => Normal (f w) w.
Definition modify (f : World -> World) : JS unit := fun w => Normal tt (f w).
Definition tell (e : Effect) : JS unit :=
  modify (fun w => set_log (log w ++ [e]) w).

(** The world an operation leaves behind, however it completes. *)
Definition world_of {A : Type} (c : Completion A) : World :=
  match c with Normal _ w => w | Throw _ w => w end.

(** ** Refs, the DOM and the window, as operations of [JS] *)

Definition setHandleRef (v : option Z) : JS unit :=
  modify (fun w => set_refs
    {| handleRef := v; parentRef := parentRef (refs w);
       parentRectRef := parentRectRef (refs w);
       positionXRef := positionXRef (refs w);
       positionYRef := positionYRef (refs w) |} w).
Definition setParentRef (v : option ElemId) : JS unit :=
  modify (fun w => set_refs
    {| handleRef := handleRef (refs w); parentRef := v;
       parentRectRef := parentRectRef (refs w);
       positionXRef := positionXRef (refs w);
       positionYRef := positionYRef (refs w) |} w).
Definition setParentRectRef (v : option DOMRect.t) : JS unit :=
  modify (fun w => set_refs
    {| handleRef := handleRef (refs w); parentRef := parentRef (refs w);
       parentRectRef := v;
       positionXRef := positionXRef (refs w);
       positionYRef := positionYRef (refs w) |} w).
Definition setPositionXRef (v : option Q) : JS unit :=
  modify (fun w => set_refs
    {| handleRef := handleRef (refs w); parentRef := parentRef (refs w);
       parentRectRef := parentRectRef (refs w);
       positionXRef := v;
       positionYRef := positionYRef (refs w) |} w).
Definition setPositionYRef (v : option Q) : JS unit :=
  modify (fun w => set_refs
    {| handleRef := handleRef (refs w); parentRef := parentRef (refs w);
       parentRectRef := parentRectRef (refs w);
       positionXRef := positionXRef (refs w);
       positionYRef := v |} w).

(** [el.scrollLeft = v] and [el.scrollTop = v]. *)
Definition update (el : ElemId) (e : Element) (f : ElemId -> Element)
  : ElemId -> Element :=
  fun k => if Nat.eqb k el then e else f k.

Definition setScrollLeft (el : ElemId) (v : Q) : JS unit :=
  modify (fun w =>
    let e := elements w el in
    set_elements (update el
      {| scrollLeft := v; scrollTop := scrollTop e;
         scrollWidth := scrollWidth e; scrollHeight := scrollHeight e;
         boundingClientRect := boundingClientRect e |} (elements w)) w) ;;
  tell (SetScrollLeft el v).

Definition setScrollTop (el : ElemId) (v : Q) : JS unit :=
  modify (fun w =>
    let e := elements w el in
    set_elements (update el
      {| scrollLeft := scrollLeft e; scrollTop := v;
         scrollWidth := scrollWidth e; scrollHeight := scrollHeight e;
         boundingClientRect := boundingClientRect e |} (elements w)) w) ;;
  tell (SetScrollTop el v).

(** [window.requestAnimationFrame]: the identifier is incremented and
    returned, the callback waits for the next frame. *)
Definition requestAnimationFrame (callback : Scope) : JS Z :=
  fun w =>
    let handle := (frameId (window w) + 1)%Z in
    Normal handle
      (set_log (log w ++ [RequestAnimationFrame handle])
        (set_window {| frameId := handle;
                       frames := frames (window w) ++ [(handle, callback)] |} w)).

(** [window.cancelAnimationFrame]. *)
Definition cancelAnimationFrame (handle : Z) : JS unit :=
  modify (fun w => set_window
    {| frameId := frameId (window w);
       frames := filter (fun hc => negb (Z.eqb (fst hc) handle))
                        (frames (window w)) |} w) ;;
  tell (CancelAnimationFrame handle).

(** [document.addEventListener]: a listener already registered for the type
    is not registered twice. *)
Definition same_listener (type : EventType) (listener : nat)
  (l : EventType * nat) : bool :=
  EventType_eqb (fst l) type && Nat.eqb (snd l) listener.

Definition addEventListener (type : EventType) (listener : nat) : JS unit :=
  modify (fun w =>
    if existsb (same_listener type listener) (listeners w) then w
    else set_listeners (listeners w ++ [(type, listener)]) w) ;;
  tell (AddEventListener type listener).

Definition removeEventListener (type : EventType) (listener : nat) : JS unit :=
  modify (fun w => set_listeners
    (filter (fun l => negb (same_listener type listener l)) (listeners w)) w) ;;
  tell (RemoveEventListener type listener).

(** ** The hook *)

(** Lines 38-41: the inner gutters of the scroll parent. *)
Definition edgeBottom (parentRect : DOMRect.t) (size : Q) : Q :=
  DOMRect.bottom parentRect - size.
Definition edgeLeft (parentRect : DOMRect.t) (size : Q) : Q :=
  DOMRect.left parentRect + size.
Definition edgeRight (parentRect : DOMRect.t) (size : Q) : Q :=
  DOMRect.right parentRect - size.
Definition edgeTop (parentRect : DOMRect.t) (size : Q) : Q :=
  DOMRect.top parentRect + size.

(** Lines 44-47: is the position within a gutter. *)
Definition isEdgeBottom (parentRect : DOMRect.t) (size positionY : Q) : bool :=
  (positionY >? edgeBottom parentRect size)%js.
Definition isEdgeLeft (parentRect : DOMRect.t) (size positionX : Q) : bool :=
  (positionX <? edgeLeft parentRect size)%js.
Definition isEdgeRight (parentRect : DOMRect.t) (size positionX : Q) : bool :=
  (positionX >? edgeRight parentRect size)%js.
Definition isEdgeTop (parentRect : DOMRect.t) (size positionY : Q) : bool :=
  (positionY <? edgeTop parentRect size)%js.

(** Lines 53-60: [nextScrollLeft], starting from [parent.scrollLeft]. *)
Definition nextScrollLeft (parentRect : DOMRect.t) (size intensity : Q)
  (scrollLeft positionX : Q) : Q :=
  if isEdgeLeft parentRect size positionX then
    scrollLeft - (edgeLeft parentRect size - positionX) * intensity
  else if isEdgeRight parentRect size positionX then
    scrollLeft + (positionX - edgeRight parentRect size) * intensity
  else scrollLeft.

(** Lines 54-66: [nextScrollTop], starting from [parent.scrollTop]. *)
Definition nextScrollTop (parentRect : DOMRect.t) (size intensity : Q)
  (scrollTop positionY : Q) : Q :=
  if isEdgeTop parentRect size positionY then
    scrollTop - (edgeTop parentRect size - positionY) * intensity
  else if isEdgeBottom parentRect size positionY then
    scrollTop + (positionY - edgeBottom parentRect size) * intensity
  else scrollTop.

(** Lines 69-70: the sanitized offset that is assigned. *)
Definition sanitize (next dimension : Q) : Q :=
  Math.max 0 (Math.min (Math.round next) dimension).

(** Lines 24-26.  The callback is always [checkScroll] of some scope. *)
Definition checkStep (callback : Scope) : JS unit :=
  handle <- requestAnimationFrame callback ;;
  setHandleRef (Some handle).

(** Lines 27-76. *)
Definition checkScroll (sc : Scope) : JS unit :=
  parent <- gets (fun w => parentRef (refs w)) ;;
  parentRect <- gets (fun w => parentRectRef (refs w)) ;;
  positionX <- gets (fun w => positionXRef (refs w)) ;;
  positionY <- gets (fun w => positionYRef (refs w)) ;;
  match parent, parentRect, positionX, positionY with
  | Some parent, Some parentRect, Some positionX, Some positionY =>
      if negb (isEdgeBottom parentRect (size sc) positionY)
         && negb (isEdgeLeft parentRect (size sc) positionX)
         && negb (isEdgeRight parentRect (size sc) positionX)
         && negb (isEdgeTop parentRect (size sc) positionY)
      then checkStep sc
      else
        left0 <- gets (fun w => scrollLeft (elements w parent)) ;;
        top0 <- gets (fun w => scrollTop (elements w parent)) ;;
        let nextLeft :=
          nextScrollLeft parentRect (size sc) (intensity sc) left0 positionX in
        let nextTop :=
          nextScrollTop parentRect (size sc) (intensity sc) top0 positionY in
        width <- gets (fun w => scrollWidth (elements w parent)) ;;
        setScrollLeft parent (sanitize nextLeft width) ;;
        height <- gets (fun w => scrollHeight (elements w parent)) ;;
        setScrollTop parent (sanitize nextTop height) ;;
        tell (OnScroll (onScroll sc) positionX positionY) ;;
        checkStep sc
  | _, _, _, _ => checkStep sc
  end.

(** Lines 79-82. *)
Definition handleMouseMove (e : MouseEvent.t) : JS unit :=
  setPositionXRef (Some (MouseEvent.clientX e)) ;;
  setPositionYRef (Some (MouseEvent.clientY e)).

(** [targetTouches[0].clientX]: reading a property of [undefined], which is
    what index 0 of an empty list is, throws a [TypeError]. *)
Definition firstTouch {A : Type} (targetTouches : list Touch.t)
  (property : Touch.t -> A) : JS A :=
  match nth_error targetTouches 0 with
  | Some touch => ret (property touch)
  | None => throw TypeError
  end.

(** Lines 83-86. *)
Definition handleTouchMove (e : TouchEvent.t) : JS unit :=
  x <- firstTouch (TouchEvent.targetTouches e) Touch.clientX ;;
  setPositionXRef (Some x) ;;
  y <- firstTouch (TouchEvent.targetTouches e) Touch.clientY ;;
  setPositionYRef (Some y).

(** ** The effects of the hook, and React's bookkeeping *)

(** A value in a condition: [undefined], [null], [false] and [0] are falsy. *)
Definition truthy_bool (v : option bool) : bool :=
  match v with Some b => b | None => false end.
Definition truthy_number (h : Z) : bool := negb (Z.eqb h 0).

(** Lines 105-121: the clean-up returned by the second effect.  The
    listeners it removes are the ones of its own render. *)
Definition cleanupEnabled (sc : Scope) : JS unit :=
  handle <- gets (fun w => handleRef (refs w)) ;;
  match handle with
  | Some h => if truthy_number h then cancelAnimationFrame h else ret tt
  | None => ret tt
  end ;;
  setHandleRef None ;;
  setPositionXRef None ;;
  setPositionYRef None ;;
  removeEventListener mousemove (render sc) ;;
  removeEventListener touchmove (render sc).

(** Lines 97-104: the body of the second effect. *)
Definition effectEnabled (sc : Scope) : JS unit :=
  if truthy_bool (enabled sc) then
    addEventListener mousemove (render sc) ;;
    addEventListener touchmove (render sc) ;;
    checkStep sc
  else ret tt.

Definition same_reference (a b : option ElemId) : bool :=
  match a, b with
  | Some x, Some y => Nat.eqb x y
  | None, None => true
  | _, _ => false
  end.

Definition same_enabled (a b : option bool) : bool :=
  match a, b with
  | Some x, Some y => Bool.eqb x y
  | None, None => true
  | _, _ => false
  end.

(** An effect runs after the first render and after a render in which its
    dependency is not the one of its last run. *)
Definition changed {A : Type} (same : A -> A -> bool) (last : option A)
  (now : A) : bool :=
  match last with Some a => negb (same a now) | None => true end.

Section Hook.

(** [getScrollParent] of [./util], which is not part of the sources at
    hand: it returns the scroll parent of an element. *)
Variable getScrollParent : ElemId -> ElemId.

(** Lines 89-94: the body of the first effect. *)
Definition effectReference (sc : Scope) : JS unit :=
  match reference sc with
  | Some reference =>
      setParentRef (Some (getScrollParent reference)) ;;
      current <- gets (fun w => parentRef (refs w)) ;;
      match current with
      | Some parent =>
          rect <- gets (fun w => boundingClientRect (elements w parent)) ;;
          setParentRectRef (Some rect)
      | None => throw TypeError
      end
  | None => ret tt
  end.

(** Lines 13-123: one render of the hook, with the commit that follows it:
    React first runs the clean-up of every effect that is about to run
    again, then the effects in the order of their declaration. *)
Definition useAutoScroll (options : Options.t) : JS unit :=
  fb <- gets fiber ;;
  let sc := destructure (S (renders fb)) options in
  let referenceChanged :=
    changed same_reference (depsReference fb) (reference sc) in
  let enabledChanged :=
    changed same_enabled (depsEnabled fb) (enabled sc) in
  (if enabledChanged
   then match cleanup fb with
        | Some old => cleanupEnabled old
        | None => ret tt
        end
   else ret tt) ;;
  (if referenceChanged then effectReference sc else ret tt) ;;
  (if enabledChanged then effectEnabled sc else ret tt) ;;
  modify (set_fiber
    {| unmounted := false;
       renders := S (renders fb);
       depsReference := Some (reference sc);
       depsEnabled := Some (enabled sc);
       cleanup := if enabledChanged then Some sc else cleanup fb |}).

(** Unmounting runs the pending clean-up. *)
Definition unmount : JS unit :=
  fb <- gets fiber ;;
  match cleanup fb with
  | Some old => cleanupEnabled old
  | None => ret tt
  end ;;
  modify (set_fiber
    {| unmounted := true;
       renders := renders fb;
       depsReference := depsReference fb;
       depsEnabled := depsEnabled fb;
       cleanup := None |}).

(** ** The event loop *)

Inductive Event : Type :=
| Render (options : Options.t)
| Unmount
| AnimationFrame
| MouseMove (e : MouseEvent.t)
| TouchMove (e : TouchEvent.t).

(** A task of the event loop: an exception that escapes it is reported,
    not propagated. *)
Definition report (task : JS unit) (w : World) : World :=
  match task w with
  | Normal _ w' => w'
  | Throw _ w' => set_log (log w' ++ [Uncaught]) w'
  end.

(** The document dispatches an event to the listeners registered for its
    type when the dispatch starts. *)
Definition dispatch (type : EventType) (handler : JS unit) (w : World)
  : World :=
  fold_left
    (fun w' l => if EventType_eqb (fst l) type then report handler w' else w')
    (listeners w) w.

(** The window runs the animation-frame callbacks that were waiting when
    the frame started; a callback is removed before it is invoked. *)
Definition runFrame (w : World) (hc : Z * Scope) : World :=
  if existsb (fun x => Z.eqb (fst x) (fst hc)) (frames (window w)) then
    report (checkScroll (snd hc))
      (set_window
         {| frameId := frameId (window w);
            frames := filter (fun x => negb (Z.eqb (fst x) (fst hc)))
                             (frames (window w)) |} w)
  else w.

Definition animationFrame (w : World) : World :=
  fold_left runFrame (frames (window w)) w.

Definition step (w : World) (ev : Event) : World :=
  match ev with
  | Render options =>
      if unmounted (fiber w) then w else report (useAutoScroll options) w
  | Unmount =>
      if unmounted (fiber w) then w else report unmount w
  | AnimationFrame => animationFrame w
  | MouseMove e => dispatch mousemove (handleMouseMove e) w
  | TouchMove e => dispatch touchmove (handleTouchMove e) w
  end.

Definition run (evs : list Event) (w : World) : World :=
  fold_left step evs w.

(** The world before the first render. *)
Definition initial (els : ElemId -> Element) : World :=
  {| elements := els;
     refs := {| handleRef := None; parentRef := None;
                parentRectRef := None; positionXRef := None;
                positionYRef := None |};
     window := {| frameId := 0; frames := [] |};
     listeners := [];
     fiber := {| unmounted := false; renders := 0;
                 depsReference := None; depsEnabled := None;
                 cleanup := None |};
     log := [] |}.

End Hook.

(** The part of the log that is a scroll mutation or an [onScroll] call. *)
Definition isScroll (e : Effect) : bool :=
  match e with
  | SetScrollLeft _ _ | SetScrollTop _ _ | OnScroll _ _ _ => true
  | _ => false
  end.

Definition scrolls (w : World) : list Effect := filter isScroll (log w).

(** ** Vocabulary of the statements *)

(** The four cells a frame reads are set (line 33 does not return). *)
Definition ready (w : World) (parent : ElemId) (parentRect : DOMRect.t)
  (positionX positionY : Q) : Prop :=
  parentRef (refs w) = Some parent /\
  parentRectRef (refs w) = Some parentRect /\
  positionXRef (refs w) = Some positionX /\
  positionYRef (refs w) = Some positionY.

(** The position is within a gutter (line 49 does not return). *)
Definition anyEdge (parentRect : DOMRect.t) (size positionX positionY : Q)
  : bool :=
  isEdgeBottom parentRect size positionY
  || isEdgeLeft parentRect size positionX
  || isEdgeRight parentRect size positionX
  || isEdgeTop parentRect size positionY.

(** The world a frame leaves behind. *)
Definition frame (sc : Scope) (w : World) : World :=
  world_of (checkScroll sc w).

(** The world after [checkStep] alone: one more callback is waiting and its
    handle is in [handleRef]. *)
Definition rescheduled (sc : Scope) (w : World) : World :=
  let handle := (frameId (window w) + 1)%Z in
  {| elements := elements w;
     refs := {| handleRef := Some handle;
                parentRef := parentRef (refs w);
                parentRectRef := parentRectRef (refs w);
                positionXRef := positionXRef (refs w);
                positionYRef := positionYRef (refs w) |};
     window := {| frameId := handle;
                  frames := frames (window w) ++ [(handle, sc)] |};
     listeners := listeners w;
     fiber := fiber w;
     log := log w ++ [RequestAnimationFrame handle] |}.

(** The rectangle, the options and the world of the scenarios: element [0]
    is the scroll parent, its scrolling area is 2000 by 1000, and the last
    pointer position is [(x, y)]. *)
Definition bounds : DOMRect.t :=
  {| DOMRect.bottom := 300; DOMRect.left := 0;
     DOMRect.right := 500; DOMRect.top := 0 |}.

Definition defaults : Options.t :=
  {| Options.enabled := Some true; Options.intensity := None;
     Options.onScroll := None; Options.reference := Some 0%nat;
     Options.size := None |}.

Definition scenario (left0 top0 x y : Q) : World :=
  {| elements := fun _ =>
       {| scrollLeft := left0; scrollTop := top0;
          scrollWidth := 2000; scrollHeight := 1000;
          boundingClientRect := bounds |};
     refs := {| handleRef := Some 1%Z; parentRef := Some 0%nat;
                parentRectRef := Some bounds;
                positionXRef := Some x; positionYRef := Some y |};
     window := {| frameId := 1; frames := [] |};
     listeners := [(mousemove, 1%nat); (touchmove, 1%nat)];
     fiber := {| unmounted := false; renders := 1;
                 depsReference := Some (Some 0%nat);
                 depsEnabled := Some (Some true);
                 cleanup := Some (destructure 1 defaults) |};
     log := [] |}.

(** Lines 57, 59, 63 and 65: the delta a branch subtracts from the offset
    (left, top) or adds to it (right, bottom). *)
Definition deltaLeft (parentRect : DOMRect.t) (size intensity positionX : Q)
  : Q :=
  (edgeLeft parentRect size - positionX) * intensity.
Definition deltaRight (parentRect : DOMRect.t) (size intensity positionX : Q)
  : Q :=
  (positionX - edgeRight parentRect size) * intensity.
Definition deltaTop (parentRect : DOMRect.t) (size intensity positionY : Q)
  : Q :=
  (edgeTop parentRect size - positionY) * intensity.
Definition deltaBottom (parentRect : DOMRect.t) (size intensity positionY : Q)
  : Q :=
  (positionY - edgeBottom parentRect size) * intensity.

(** A speed ramp: the [delta] of a branch is zero where the penetration
    [depth] is zero, it is not negative at the positions [p] at which the
    branch [applies], and it does not shrink when the depth grows. *)
Definition ramp (applies : Q -> bool) (depth delta : Q -> Q) : Prop :=
  (forall p, depth p == 0 -> delta p == 0) /\
  (forall p, applies p = true -> 0 <= delta p) /\
  (forall p q, depth p <= depth q -> delta p <= delta q).

(** Lines 39, 46 and 59 over binary64, the numbers of the source: the right
    gutter of a rectangle whose right side is at [right], and two pointer
    positions next to each other in it. *)
Module Binary64.
Import PrimFloat.
#[local] Set Warnings "-inexact-float".
Definition number : Set := float.
Definition gtb (x y : number) : bool := PrimFloat.ltb y x.
Definition edgeRight (right size : number) : number := (right - size)%float.
Definition isEdgeRight (right size positionX : number) : bool :=
  gtb positionX (edgeRight right size).
Definition deltaRight (right size intensity positionX : number) : number :=
  ((positionX - edgeRight right size) * intensity)%float.
Definition depthRight (right size positionX : number) : number :=
  (positionX - edgeRight right size)%float.
Definition fifty : number := 50%float.
Definition fifth : number := 0.2%float.
Definition shallow : number := 1.5%float.
Definition deeper : number := 1.5000000000000002%float.
End Binary64.

(** The branch of lines 56-66 that is applied at a position.  The left and
    the top branch come first in the source. *)
Definition appliesLeft (parentRect : DOMRect.t) (size x : Q) : bool :=
  isEdgeLeft parentRect size x.
Definition appliesRight (parentRect : DOMRect.t) (size x : Q) : bool :=
  negb (isEdgeLeft parentRect size x) && isEdgeRight parentRect size x.
Definition appliesTop (parentRect : DOMRect.t) (size y : Q) : bool :=
  isEdgeTop parentRect size y.
Definition appliesBottom (parentRect : DOMRect.t) (size y : Q) : bool :=
  negb (isEdgeTop parentRect size y) && isEdgeBottom parentRect size y.

(** An effect of the log respects the clamp of the scroll parent it is
    about: the offset assigned lies in [[0, scrollWidth]], for [scrollTop] in
    [[0, scrollHeight]]. *)
Definition clamped (els : ElemId -> Element) (e : Effect) : Prop :=
  match e with
  | SetScrollLeft el v => 0 <= v <= scrollWidth (els el)
  | SetScrollTop el v => 0 <= v <= scrollHeight (els el)
  | _ => True
  end.

(** The DOM reports the extent of a scrolling area, which is not negative. *)
Definition extents (els : ElemId -> Element) : Prop :=
  forall el, 0 <= scrollWidth (els el) /\ 0 <= scrollHeight (els el).

(** The two states of the loop.  Idle: no listener, no callback waiting.
    Armed by the closures of [sc]: its two listeners, and exactly one
    callback waiting, whose handle is the one in [handleRef]. *)
Definition idle (w : World) : Prop :=
  listeners w = [] /\ frames (window w) = [].

Definition armed (sc : Scope) (w : World) : Prop :=
  listeners w = [(mousemove, render sc); (touchmove, render sc)] /\
  exists handle,
    handleRef (refs w) = Some handle /\
    frames (window w) = [(handle, sc)] /\
    (0 < handle <= frameId (window w))%Z.

(** The state of the loop that goes with the pending clean-up. *)
Definition looping (pending : option Scope) (w : World) : Prop :=
  match pending with
  | Some sc => if truthy_bool (enabled sc) then armed sc w else idle w
  | None => idle w
  end.

(** What holds of every world the event loop reaches. *)
Definition consistent (w : World) : Prop :=
  (0 <= frameId (window w))%Z /\
  looping (cleanup (fiber w)) w /\
  match cleanup (fiber w) with
  | Some sc =>
      unmounted (fiber w) = false /\
      depsEnabled (fiber w) = Some (enabled sc)
  | None => unmounted (fiber w) = false -> depsEnabled (fiber w) = None
  end.

(** From [w] to [w'] no element has changed and nothing that is a scroll
    mutation or an [onScroll] call was added to the log. *)
Definition quietly (w w' : World) : Prop :=
  elements w' = elements w /\
  exists added, log w' = log w ++ added /\ filter isScroll added = [].

(** The scrolling areas are the ones of [els], and every assignment in the
    log is clamped to them. *)
Definition within (els : ElemId -> Element) (w : World) : Prop :=
  (forall el, scrollWidth (elements w el) = scrollWidth (els el) /\
              scrollHeight (elements w el) = scrollHeight (els el)) /\
  Forall (clamped els) (log w).

(** What every frame does to the loop, from [w] to [w']: one more callback
    is waiting, its handle is in [handleRef], and nothing else of the loop's
    state has changed. *)
Definition turns (sc : Scope) (w w' : World) : Prop :=
  refs w' = refs (rescheduled sc w) /\
  window w' = window (rescheduled sc w) /\
  listeners w' = listeners w /\
  fiber w' = fiber w /\
  forall els, extents els -> within els w -> within els w'.



(** The events of the scenarios: the hook is mounted enabled on element [0],
    the pointer moves into the right gutter and a frame runs; the hook is
    then rendered disabled; the pointer goes on moving and frames go on
    running. *)
Definition mounting : list Event :=
  [Render defaults;
   MouseMove {| MouseEvent.clientX := 520; MouseEvent.clientY := 150 |};
   AnimationFrame].

Definition disabling : Event :=
  Render {| Options.enabled := Some false; Options.intensity := None;
            Options.onScroll := None; Options.reference := Some 0%nat;
            Options.size := None |}.

Definition lingering : list Event :=
  [MouseMove {| MouseEvent.clientX := 10; MouseEvent.clientY := 10 |};
   AnimationFrame;
   TouchMove {| TouchEvent.targetTouches := [] |};
   AnimationFrame].

(** ** Vocabulary of the further properties *)

(** The number is an integer. *)
Definition integral (q : Q) : Prop := exists z : Z, q == inject_Z z.

(** The rectangle seen with the two axes exchanged. *)
Definition transpose (r : DOMRect.t) : DOMRect.t :=
  {| DOMRect.bottom := DOMRect.right r; DOMRect.left := DOMRect.top r;
     DOMRect.right := DOMRect.bottom r; DOMRect.top := DOMRect.left r |}.

(** The three cells the clean-up resets are [null]. *)
Definition dormant (w : World) : Prop :=
  handleRef (refs w) = None /\
  positionXRef (refs w) = None /\
  positionYRef (refs w) = None.

(** A consistent world whose idle loop has its cells reset. *)
Definition settled (w : World) : Prop :=
  consistent w /\ (idle w -> dormant w).

(** The hook is mounted and the [enabled] of its last render is truthy. *)
Definition enabledNow (w : World) : bool :=
  negb (unmounted (fiber w)) &&
  match depsEnabled (fiber w) with
  | Some e => truthy_bool e
  | None => false
  end.

(** The scroll target and its cached rectangle. *)
Definition target (w : World) : option ElemId * option DOMRect.t :=
  (parentRef (refs w), parentRectRef (refs w)).

(** An operation leaves a part of the world as it found it, however it
    completes. *)
Definition keeps {X A : Type} (part : World -> X) (m : JS A) : Prop :=
  forall w, part (world_of (m w)) = part w.

(** From [w] to [w'] nothing of the DOM has changed but, at most, the two
    scroll offsets of the scroll target of [w]. *)
Definition confined (w w' : World) : Prop :=
  parentRef (refs w') = parentRef (refs w) /\
  forall el,
    scrollWidth (elements w' el) = scrollWidth (elements w el) /\
    scrollHeight (elements w' el) = scrollHeight (elements w el) /\
    boundingClientRect (elements w' el) = boundingClientRect (elements w el) /\
    (parentRef (refs w) <> Some el -> elements w' el = elements w el).

(** Lines 27-76 once more, with the call of line 73 left open: [call] is
    what calling a callback with the two coordinates does to the world,
    which may be anything, a [throw] included.  [checkScroll] is the
    instance in which the call is recorded and returns. *)
Definition checkScrollCalling (call : Callback -> Q -> Q -> JS unit)
  (sc : Scope) : JS unit :=
  parent <- gets (fun w => parentRef (refs w)) ;;
  parentRect <- gets (fun w => parentRectRef (refs w)) ;;
  positionX <- gets (fun w => positionXRef (refs w)) ;;
  positionY <- gets (fun w => positionYRef (refs w)) ;;
  match parent, parentRect, positionX, positionY with
  | Some parent, Some parentRect, Some positionX, Some positionY =>
      if negb (isEdgeBottom parentRect (size sc) positionY)
         && negb (isEdgeLeft parentRect (size sc) positionX)
         && negb (isEdgeRight parentRect (size sc) positionX)
         && negb (isEdgeTop parentRect (size sc) positionY)
      then checkStep sc
      else
        left0 <- gets (fun w => scrollLeft (elements w parent)) ;;
        top0 <- gets (fun w => scrollTop (elements w parent)) ;;
        let nextLeft :=
          nextScrollLeft parentRect (size sc) (intensity sc) left0 positionX in
        let nextTop :=
          nextScrollTop parentRect (size sc) (intensity sc) top0 positionY in
        width <- gets (fun w => scrollWidth (elements w parent)) ;;
        setScrollLeft parent (sanitize nextLeft width) ;;
        height <- gets (fun w => scrollHeight (elements w parent)) ;;
        setScrollTop parent (sanitize nextTop height) ;;
        call (onScroll sc) positionX positionY ;;
        checkStep sc
  | _, _, _, _ => checkStep sc
  end.

(** The largest scroll extent of a browser, a 32-bit integer: up to it an
    integer offset and the offset plus or minus a quarter, a half and three
    quarters are numbers of the source. *)
Definition maxExtent : Q := 2147483647.

(** * Properties *)

(** ** Numbers *)

Lemma ltb_lt (x y : Q) : ltb x y = true <-> x < y.
Proof.
  unfold ltb. rewrite negb_true_iff, <- not_true_iff_false, Qle_bool_iff.
  split; [apply Qnot_le_lt | apply Qlt_not_le].
Qed.

Lemma ltb_ge (x y : Q) : ltb x y = false <-> y <= x.
Proof.
  unfold ltb. rewrite negb_false_iff. apply Qle_bool_iff.
Qed.

Lemma gtb_gt (x y : Q) : gtb x y = true <-> y < x.
Proof. apply ltb_lt. Qed.

Lemma gtb_le (x y : Q) : gtb x y = false <-> x <= y.
Proof. apply ltb_ge. Qed.

#[export] Instance round_compat : Proper (Qeq ==> Qeq) Math.round.
Proof.
  intros x y E. unfold Math.round. now rewrite E.
Qed.

#[export] Instance sanitize_compat : Proper (Qeq ==> Qeq ==> Qeq) sanitize.
Proof.
  intros x y E d d' E'. unfold sanitize, Math.max, Math.min.
  now rewrite E, E'.
Qed.

Lemma sanitize_range (next dimension : Q) :
  0 <= dimension -> 0 <= sanitize next dimension <= dimension.
Proof.
  intros H. unfold sanitize, Math.max, Math.min. split.
  - apply Q.le_max_l.
  - apply Q.max_lub; [exact H | apply Q.le_min_r].
Qed.

(** ** One frame *)

Lemma checkStep_rescheduled (sc : Scope) (w : World) :
  checkStep sc w = Normal tt (rescheduled sc w).
Proof. reflexivity. Qed.

Lemma checkScroll_not_ready (sc : Scope) (w : World) :
  parentRef (refs w) = None \/ parentRectRef (refs w) = None \/
  positionXRef (refs w) = None \/ positionYRef (refs w) = None ->
  checkScroll sc w = checkStep sc w.
Proof.
  intros H. unfold checkScroll, bind, gets.
  destruct (parentRef (refs w)), (parentRectRef (refs w)),
    (positionXRef (refs w)), (positionYRef (refs w));
    try reflexivity.
  destruct H as [H | [H | [H | H]]]; discriminate H.
Qed.

Lemma checkScroll_outside (sc : Scope) (w : World) (parent : ElemId)
  (parentRect : DOMRect.t) (x y : Q) :
  ready w parent parentRect x y ->
  anyEdge parentRect (size sc) x y = false ->
  checkScroll sc w = checkStep sc w.
Proof.
  intros (Hp & Hr & Hx & Hy) He.
  unfold checkScroll, bind, gets. rewrite Hp, Hr, Hx, Hy.
  unfold anyEdge in He.
  destruct (isEdgeBottom parentRect (size sc) y),
    (isEdgeLeft parentRect (size sc) x),
    (isEdgeRight parentRect (size sc) x),
    (isEdgeTop parentRect (size sc) y); try discriminate He.
  reflexivity.
Qed.

(** What a frame does when the position is within a gutter. *)
Lemma checkScroll_inside (sc : Scope) (w : World) (parent : ElemId)
  (parentRect : DOMRect.t) (x y : Q) :
  ready w parent parentRect x y ->
  anyEdge parentRect (size sc) x y = true ->
  let e := elements w parent in
  let vL := sanitize (nextScrollLeft parentRect (size sc) (intensity sc)
                        (scrollLeft e) x) (scrollWidth e) in
  let vT := sanitize (nextScrollTop parentRect (size sc) (intensity sc)
                        (scrollTop e) y) (scrollHeight e) in
  let handle := (frameId (window w) + 1)%Z in
  exists w',
    checkScroll sc w = Normal tt w' /\
    log w' = log w ++ [SetScrollLeft parent vL; SetScrollTop parent vT;
                       OnScroll (onScroll sc) x y;
                       RequestAnimationFrame handle] /\
    elements w' parent =
      {| scrollLeft := vL; scrollTop := vT;
         scrollWidth := scrollWidth e; scrollHeight := scrollHeight e;
         boundingClientRect := boundingClientRect e |} /\
    (forall el, el <> parent -> elements w' el = elements w el) /\
    refs w' = refs (rescheduled sc w) /\
    window w' = window (rescheduled sc w) /\
    listeners w' = listeners w /\
    fiber w' = fiber w.
Proof.
  intros (Hp & Hr & Hx & Hy) He e vL vT handle.
  unfold checkScroll, bind, gets. rewrite Hp, Hr, Hx, Hy.
  replace (negb (isEdgeBottom parentRect (size sc) y)
           && negb (isEdgeLeft parentRect (size sc) x)
           && negb (isEdgeRight parentRect (size sc) x)
           && negb (isEdgeTop parentRect (size sc) y))
    with (negb (anyEdge parentRect (size sc) x y))
    by (unfold anyEdge; now rewrite !negb_orb).
  rewrite He. cbn [negb].
  eexists. split; [reflexivity |]. cbn.
  unfold update. rewrite Nat.eqb_refl. cbn.
  repeat split.
  - now rewrite <- !app_assoc.
  - intros el Hne. apply Nat.eqb_neq in Hne. now rewrite Hne.
Qed.

(** ** Gutter detection *)

(** C2.  The pointer is in the top gutter exactly when
    [positionY < bounds.top + size], in the bottom gutter exactly when
    [positionY > bounds.bottom - size], in the left gutter exactly when
    [positionX < bounds.left + size] and in the right gutter exactly when
    [positionX > bounds.right - size]; the comparisons are strict, so a
    pointer on a gutter's boundary line is not in that gutter. *)
Theorem gutter_classification (parentRect : DOMRect.t) (size x y : Q) :
  (isEdgeTop parentRect size y = true <-> y < DOMRect.top parentRect + size) /\
  (isEdgeBottom parentRect size y = true <->
     y > DOMRect.bottom parentRect - size) /\
  (isEdgeLeft parentRect size x = true <->
     x < DOMRect.left parentRect + size) /\
  (isEdgeRight parentRect size x = true <->
     x > DOMRect.right parentRect - size) /\
  isEdgeTop parentRect size (DOMRect.top parentRect + size) = false /\
  isEdgeBottom parentRect size (DOMRect.bottom parentRect - size) = false /\
  isEdgeLeft parentRect size (DOMRect.left parentRect + size) = false /\
  isEdgeRight parentRect size (DOMRect.right parentRect - size) = false.
Proof.
  unfold isEdgeTop, isEdgeBottom, isEdgeLeft, isEdgeRight,
    edgeTop, edgeBottom, edgeLeft, edgeRight.
  repeat split;
    try (apply ltb_lt); try (apply gtb_gt);
    try (intros H; first [apply ltb_lt in H | apply gtb_gt in H]; exact H);
    try (apply ltb_ge; apply Qle_refl); try (apply gtb_le; apply Qle_refl).
Qed.

Lemma gutter_classification_witness :
  isEdgeRight bounds 50 520 = true /\ isEdgeTop bounds 50 50 = false.
Proof.
  split.
  - apply (proj1 (proj2 (proj2 (proj2 (gutter_classification bounds 50 520 150))))).
    reflexivity.
  - apply (gutter_classification bounds 50 520 150).
Defined.

Lemma anyEdge_false (parentRect : DOMRect.t) (size x y : Q) :
  anyEdge parentRect size x y = false <->
  edgeLeft parentRect size <= x <= edgeRight parentRect size /\
  edgeTop parentRect size <= y <= edgeBottom parentRect size.
Proof.
  unfold anyEdge, isEdgeTop, isEdgeBottom, isEdgeLeft, isEdgeRight.
  rewrite !orb_false_iff, !ltb_ge, !gtb_le. tauto.
Qed.

(** C3.  When none of the four gutter predicates holds, and in particular at
    every position strictly inside the inner rectangle, the frame mutates no
    scroll offset, does not invoke [onScroll] and only reschedules itself. *)
Theorem noop_outside_gutters (sc : Scope) (w : World) (parent : ElemId)
  (parentRect : DOMRect.t) (x y : Q) :
  ready w parent parentRect x y ->
  (edgeLeft parentRect (size sc) < x < edgeRight parentRect (size sc) /\
   edgeTop parentRect (size sc) < y < edgeBottom parentRect (size sc) ->
   anyEdge parentRect (size sc) x y = false) /\
  (anyEdge parentRect (size sc) x y = false ->
   checkScroll sc w = checkStep sc w /\
   elements (frame sc w) = elements w /\
   scrolls (frame sc w) = scrolls w /\
   log (frame sc w) =
     log w ++ [RequestAnimationFrame (frameId (window w) + 1)]).
Proof.
  intros Hready. split.
  - intros [[? ?] [? ?]]. apply anyEdge_false.
    repeat split; now apply Qlt_le_weak.
  - intros He. unfold frame, scrolls.
    rewrite (checkScroll_outside sc Hready He), checkStep_rescheduled.
    cbn. rewrite filter_app, app_nil_r. auto.
Qed.

Lemma noop_outside_gutters_witness :
  scrolls (frame (destructure 1 defaults) (scenario 100 40 250 150)) = [].
Proof.
  assert (R : ready (scenario 100 40 250 150) 0%nat bounds 250 150)
    by (repeat split).
  destruct (noop_outside_gutters (destructure 1 defaults) R) as [In Out].
  assert (E : anyEdge bounds (size (destructure 1 defaults)) 250 150 = false)
    by (apply In; repeat split; reflexivity).
  exact (proj1 (proj2 (proj2 (Out E)))).
Defined.

(** C6.  A frame in which the scroll target, the cached bounds or a pointer
    coordinate is still [null] mutates no scroll offset, does not invoke
    [onScroll] and only reschedules itself. *)
Theorem not_ready_noop (sc : Scope) (w : World) :
  parentRef (refs w) = None \/ parentRectRef (refs w) = None \/
  positionXRef (refs w) = None \/ positionYRef (refs w) = None ->
  checkScroll sc w = checkStep sc w /\
  elements (frame sc w) = elements w /\
  scrolls (frame sc w) = scrolls w /\
  log (frame sc w) =
    log w ++ [RequestAnimationFrame (frameId (window w) + 1)].
Proof.
  intros H. unfold frame, scrolls.
  rewrite (checkScroll_not_ready sc w H), checkStep_rescheduled.
  cbn. rewrite filter_app, app_nil_r. auto.
Qed.

Lemma not_ready_noop_witness :
  scrolls (frame (destructure 1 defaults)
             (initial (elements (scenario 100 40 520 150)))) = [].
Proof.
  refine (proj1 (proj2 (proj2 (not_ready_noop (destructure 1 defaults) _ _)))).
  left. reflexivity.
Defined.

(** ** Velocity *)

(** C7.  On each axis at most one of the two deltas is applied: the offset
    that a frame sanitizes and assigns is the old one minus the left (top)
    delta, or the old one plus the right (bottom) delta, or the old one,
    never the old one with both deltas; and when
    [2 * size < bounds.right - bounds.left] no position is in the left and
    in the right gutter, likewise for top and bottom when
    [2 * size < bounds.bottom - bounds.top]. *)
Theorem axis_exclusive :
  (forall (sc : Scope) (w : World) (parent : ElemId)
          (parentRect : DOMRect.t) (x y : Q),
     ready w parent parentRect x y ->
     anyEdge parentRect (size sc) x y = true ->
     let e := elements w parent in
     exists nextLeft nextTop,
       log (frame sc w) =
         log w ++ [SetScrollLeft parent (sanitize nextLeft (scrollWidth e));
                   SetScrollTop parent (sanitize nextTop (scrollHeight e));
                   OnScroll (onScroll sc) x y;
                   RequestAnimationFrame (frameId (window w) + 1)] /\
       ((isEdgeLeft parentRect (size sc) x = true /\
         nextLeft =
           scrollLeft e - (edgeLeft parentRect (size sc) - x) * intensity sc) \/
        (isEdgeLeft parentRect (size sc) x = false /\
         isEdgeRight parentRect (size sc) x = true /\
         nextLeft =
           scrollLeft e + (x - edgeRight parentRect (size sc)) * intensity sc) \/
        (isEdgeLeft parentRect (size sc) x = false /\
         isEdgeRight parentRect (size sc) x = false /\
         nextLeft = scrollLeft e)) /\
       ((isEdgeTop parentRect (size sc) y = true /\
         nextTop =
           scrollTop e - (edgeTop parentRect (size sc) - y) * intensity sc) \/
        (isEdgeTop parentRect (size sc) y = false /\
         isEdgeBottom parentRect (size sc) y = true /\
         nextTop =
           scrollTop e + (y - edgeBottom parentRect (size sc)) * intensity sc) \/
        (isEdgeTop parentRect (size sc) y = false /\
         isEdgeBottom parentRect (size sc) y = false /\
         nextTop = scrollTop e))) /\
  (forall (parentRect : DOMRect.t) (size x : Q),
     2 * size < DOMRect.right parentRect - DOMRect.left parentRect ->
     ~ (isEdgeLeft parentRect size x = true /\
        isEdgeRight parentRect size x = true)) /\
  (forall (parentRect : DOMRect.t) (size y : Q),
     2 * size < DOMRect.bottom parentRect - DOMRect.top parentRect ->
     ~ (isEdgeTop parentRect size y = true /\
        isEdgeBottom parentRect size y = true)).
Proof.
  split; [| split].
  - intros sc w parent parentRect x y Hready He e.
    destruct (checkScroll_inside sc Hready He) as (w' & Hrun & Hlog & _).
    unfold frame. rewrite Hrun. cbn [world_of].
    eexists _, _. split; [exact Hlog |]. split.
    + unfold nextScrollLeft.
      destruct (isEdgeLeft parentRect (size sc) x),
        (isEdgeRight parentRect (size sc) x); auto.
    + unfold nextScrollTop.
      destruct (isEdgeTop parentRect (size sc) y),
        (isEdgeBottom parentRect (size sc) y); auto.
  - intros parentRect size x H [L R]. unfold isEdgeLeft, edgeLeft in L.
    unfold isEdgeRight, edgeRight in R.
    apply ltb_lt in L. apply gtb_gt in R. lra.
  - intros parentRect size y H [T B]. unfold isEdgeTop, edgeTop in T.
    unfold isEdgeBottom, edgeBottom in B.
    apply ltb_lt in T. apply gtb_gt in B. lra.
Qed.

Lemma axis_exclusive_witness :
  ~ (isEdgeLeft bounds 50 520 = true /\ isEdgeRight bounds 50 520 = true) /\
  ~ (isEdgeTop bounds 50 150 = true /\ isEdgeBottom bounds 50 150 = true) /\
  exists nextLeft nextTop,
    log (frame (destructure 1 defaults) (scenario 100 40 520 150)) =
      [SetScrollLeft 0%nat (sanitize nextLeft 2000);
       SetScrollTop 0%nat (sanitize nextTop 1000);
       OnScroll noop 520 150; RequestAnimationFrame 2].
Proof.
  destruct axis_exclusive as (F & H & V).
  split; [apply H; reflexivity | split; [apply V; reflexivity |]].
  assert (R : ready (scenario 100 40 520 150) 0%nat bounds 520 150)
    by (repeat split).
  assert (E : anyEdge bounds (size (destructure 1 defaults)) 520 150 = true)
    by reflexivity.
  destruct (F (destructure 1 defaults) _ _ _ _ _ R E)
    as (nextLeft & nextTop & Hlog & _).
  exists nextLeft, nextTop. exact Hlog.
Defined.

Lemma ramp_intro (applies : Q -> bool) (depth delta : Q -> Q) (slope : Q) :
  0 < slope ->
  (forall p, delta p == depth p * slope) ->
  (forall p, applies p = true -> 0 < depth p) ->
  ramp applies depth delta.
Proof.
  intros Hs Hlin Hpos. split; [| split].
  - intros p H0. rewrite Hlin, H0. ring.
  - intros p Hp. rewrite Hlin. specialize (Hpos p Hp). nra.
  - intros p q Hpq. rewrite !Hlin. nra.
Qed.

(** C4, amended.  Over the positions at which a direction's branch is the
    one applied, the next offset is the current one minus (left, top) or
    plus (right, bottom) the delta of that direction, the product of the
    penetration depth and [intensity] as the code computes it, to which no
    maximum is applied: the right delta is
    [(positionX - edgeRight) * intensity].  For a positive [intensity] the
    delta is zero where the depth is zero, it is not negative within the
    gutter, and it does not shrink when the depth grows. *)
Theorem speed_ramp (parentRect : DOMRect.t) (size intensity s : Q) :
  0 < intensity ->
  (forall x, appliesLeft parentRect size x = true ->
     nextScrollLeft parentRect size intensity s x =
       s - deltaLeft parentRect size intensity x) /\
  (forall x, appliesRight parentRect size x = true ->
     nextScrollLeft parentRect size intensity s x =
       s + deltaRight parentRect size intensity x) /\
  (forall y, appliesTop parentRect size y = true ->
     nextScrollTop parentRect size intensity s y =
       s - deltaTop parentRect size intensity y) /\
  (forall y, appliesBottom parentRect size y = true ->
     nextScrollTop parentRect size intensity s y =
       s + deltaBottom parentRect size intensity y) /\
  ramp (appliesLeft parentRect size)
       (fun x => edgeLeft parentRect size - x)
       (deltaLeft parentRect size intensity) /\
  ramp (appliesRight parentRect size)
       (fun x => x - edgeRight parentRect size)
       (deltaRight parentRect size intensity) /\
  ramp (appliesTop parentRect size)
       (fun y => edgeTop parentRect size - y)
       (deltaTop parentRect size intensity) /\
  ramp (appliesBottom parentRect size)
       (fun y => y - edgeBottom parentRect size)
       (deltaBottom parentRect size intensity).
Proof.
  intros Hi.
  split; [| split; [| split; [| split; [| split; [| split; [| split]]]]]].
  - intros x Hx. unfold nextScrollLeft. unfold appliesLeft in Hx.
    now rewrite Hx.
  - intros x Hx. unfold nextScrollLeft. unfold appliesRight in Hx.
    apply andb_true_iff in Hx. destruct Hx as [Hl Hr].
    apply negb_true_iff in Hl. now rewrite Hl, Hr.
  - intros y Hy. unfold nextScrollTop. unfold appliesTop in Hy.
    now rewrite Hy.
  - intros y Hy. unfold nextScrollTop. unfold appliesBottom in Hy.
    apply andb_true_iff in Hy. destruct Hy as [Ht Hb].
    apply negb_true_iff in Ht. now rewrite Ht, Hb.
  - apply ramp_intro with intensity; [exact Hi | reflexivity |].
    intros x Hx. unfold appliesLeft in Hx. apply ltb_lt in Hx. lra.
  - apply ramp_intro with intensity; [exact Hi | reflexivity |].
    intros x Hx. unfold appliesRight in Hx.
    apply andb_true_iff in Hx. destruct Hx as [_ Hr].
    apply gtb_gt in Hr. lra.
  - apply ramp_intro with intensity; [exact Hi | reflexivity |].
    intros y Hy. unfold appliesTop in Hy. apply ltb_lt in Hy. lra.
  - apply ramp_intro with intensity; [exact Hi | reflexivity |].
    intros y Hy. unfold appliesBottom in Hy.
    apply andb_true_iff in Hy. destruct Hy as [_ Hb].
    apply gtb_gt in Hb. lra.
Qed.

Lemma speed_ramp_witness :
  nextScrollLeft bounds 50 (2 # 10) 100 520 =
    100 + deltaRight bounds 50 (2 # 10) 520 /\
  deltaRight bounds 50 (2 # 10) 460 <= deltaRight bounds 50 (2 # 10) 520.
Proof.
  assert (I : 0 < 2 # 10) by reflexivity.
  destruct (@speed_ramp bounds 50 (2 # 10) 100 I)
    as (_ & R & _ & _ & _ & (_ & _ & M) & _).
  split.
  - apply R. reflexivity.
  - apply M. vm_compute. intros H. discriminate H.
Defined.

(** C4 as it is stated fails.  With [intensity = 0] the pointer 10 and 20
    units into the right gutter gets the same delta, zero, so the magnitude
    does not grow with the depth; with [intensity = -0.2] the magnitude at
    depth 10 is 2, not [10 * intensity]; where the gutters overlap
    ([size = 300] in a rectangle 500 wide) a pointer in the right gutter is
    also in the left one, whose branch is applied: the delta is not
    [(positionX - edgeRight) * intensity]; and in binary64, with the default
    intensity, the pointer at [1.5000000000000002] is in the right gutter,
    deeper than the pointer at [1.5], and the delta the code computes for it
    is not larger. *)
Lemma speed_ramp_counterexample :
  (isEdgeRight bounds 50 460 = true /\ isEdgeRight bounds 50 470 = true /\
   460 - edgeRight bounds 50 < 470 - edgeRight bounds 50 /\
   ~ (Qabs (nextScrollLeft bounds 50 0 100 460 - 100) <
      Qabs (nextScrollLeft bounds 50 0 100 470 - 100))) /\
  (isEdgeRight bounds 50 460 = true /\
   ~ (Qabs (nextScrollLeft bounds 50 (- (2 # 10)) 100 460 - 100) ==
        (460 - edgeRight bounds 50) * - (2 # 10))) /\
  (isEdgeRight bounds 300 250 = true /\
   ~ (nextScrollLeft bounds 300 (2 # 10) 100 250 - 100 ==
        (250 - edgeRight bounds 300) * (2 # 10))) /\
  (Binary64.isEdgeRight Binary64.fifty Binary64.fifty Binary64.shallow = true /\
   Binary64.isEdgeRight Binary64.fifty Binary64.fifty Binary64.deeper = true /\
   Binary64.gtb (Binary64.depthRight Binary64.fifty Binary64.fifty
                   Binary64.deeper)
                (Binary64.depthRight Binary64.fifty Binary64.fifty
                   Binary64.shallow) = true /\
   Binary64.gtb (Binary64.deltaRight Binary64.fifty Binary64.fifty
                   Binary64.fifth Binary64.deeper)
                (Binary64.deltaRight Binary64.fifty Binary64.fifty
                   Binary64.fifth Binary64.shallow) = false).
Proof.
  repeat split; try reflexivity; vm_compute; intros H; discriminate H.
Qed.

(** ** The frame within a gutter *)

Lemma nextScrollLeft_idle (parentRect : DOMRect.t) (size intensity s x : Q) :
  isEdgeLeft parentRect size x = false ->
  isEdgeRight parentRect size x = false ->
  nextScrollLeft parentRect size intensity s x = s.
Proof. unfold nextScrollLeft. now intros -> ->. Qed.

Lemma nextScrollTop_idle (parentRect : DOMRect.t) (size intensity s y : Q) :
  isEdgeTop parentRect size y = false ->
  isEdgeBottom parentRect size y = false ->
  nextScrollTop parentRect size intensity s y = s.
Proof. unfold nextScrollTop. now intros -> ->. Qed.

(** C10.  Whenever a gutter predicate holds, the frame assigns both
    [scrollLeft] and [scrollTop], then calls [onScroll]; on an axis none of
    whose predicates holds, the offset assigned is the current one, rounded
    and clamped.  So a frame triggered by the right gutter alone can change
    a fractional [scrollTop], one triggered by the bottom gutter alone a
    fractional [scrollLeft], and [onScroll] is called even when both
    offsets stay what they were. *)
Theorem both_axes_written :
  (forall (sc : Scope) (w : World) (parent : ElemId)
          (parentRect : DOMRect.t) (x y : Q),
     ready w parent parentRect x y ->
     anyEdge parentRect (size sc) x y = true ->
     let e := elements w parent in
     exists vL vT,
       log (frame sc w) =
         log w ++ [SetScrollLeft parent vL; SetScrollTop parent vT;
                   OnScroll (onScroll sc) x y;
                   RequestAnimationFrame (frameId (window w) + 1)] /\
       scrollLeft (elements (frame sc w) parent) = vL /\
       scrollTop (elements (frame sc w) parent) = vT /\
       (isEdgeLeft parentRect (size sc) x = false ->
        isEdgeRight parentRect (size sc) x = false ->
        vL = sanitize (scrollLeft e) (scrollWidth e)) /\
       (isEdgeTop parentRect (size sc) y = false ->
        isEdgeBottom parentRect (size sc) y = false ->
        vT = sanitize (scrollTop e) (scrollHeight e))) /\
  (let sc := destructure 1 defaults in
   let w := scenario 100 (52 # 5) 520 150 in
   anyEdge bounds (size sc) 520 150 = true /\
   isEdgeTop bounds (size sc) 150 = false /\
   isEdgeBottom bounds (size sc) 150 = false /\
   scrollTop (elements w 0%nat) == 52 # 5 /\
   scrollTop (elements (frame sc w) 0%nat) == 10) /\
  (let sc := destructure 1 defaults in
   let w := scenario (52 # 5) 100 250 280 in
   anyEdge bounds (size sc) 250 280 = true /\
   isEdgeLeft bounds (size sc) 250 = false /\
   isEdgeRight bounds (size sc) 250 = false /\
   scrollLeft (elements w 0%nat) == 52 # 5 /\
   scrollLeft (elements (frame sc w) 0%nat) == 10) /\
  (let sc := destructure 1 defaults in
   let w := scenario 0 40 20 150 in
   anyEdge bounds (size sc) 20 150 = true /\
   scrollLeft (elements (frame sc w) 0%nat) == scrollLeft (elements w 0%nat) /\
   scrollTop (elements (frame sc w) 0%nat) == scrollTop (elements w 0%nat) /\
   scrolls (frame sc w) =
     [SetScrollLeft 0%nat 0; SetScrollTop 0%nat 40; OnScroll noop 20 150]).
Proof.
  split; [| split; [| split]].
  - intros sc w parent parentRect x y Hready He e.
    destruct (checkScroll_inside sc Hready He)
      as (w' & Hrun & Hlog & Hel & _).
    unfold frame. rewrite Hrun. cbn [world_of].
    eexists _, _. split; [exact Hlog |]. rewrite Hel. cbn.
    repeat split.
    + intros Hl Hr. now rewrite nextScrollLeft_idle.
    + intros Ht Hb. now rewrite nextScrollTop_idle.
  - vm_compute. repeat split; intros H; discriminate H.
  - vm_compute. repeat split; intros H; discriminate H.
  - vm_compute. repeat split; intros H; discriminate H.
Qed.

Lemma both_axes_written_witness :
  exists vL vT,
    log (frame (destructure 1 defaults) (scenario 100 40 520 150)) =
      [SetScrollLeft 0%nat vL; SetScrollTop 0%nat vT; OnScroll noop 520 150;
       RequestAnimationFrame 2].
Proof.
  assert (R : ready (scenario 100 40 520 150) 0%nat bounds 520 150)
    by (repeat split).
  assert (E : anyEdge bounds (size (destructure 1 defaults)) 520 150 = true)
    by reflexivity.
  destruct (proj1 both_axes_written (destructure 1 defaults) _ _ _ _ _ R E)
    as (vL & vT & Hlog & _).
  exists vL, vT. exact Hlog.
Defined.

(** C1.  With the cached bounds [{top: 0, left: 0, right: 500, bottom: 300}],
    [size = 50], [intensity = 0.2] and the pointer at [(520, 150)]:
    [edgeRight] is 450, the pointer is in the right gutter, the horizontal
    delta is [(520 - 450) * 0.2 = 14], [scrollLeft] is assigned the old
    [scrollLeft] plus 14, rounded and clamped to [[0, scrollWidth]], and
    [onScroll(520, 150)] is called. *)
Theorem concrete_scenario (sc : Scope) (w : World) (parent : ElemId) :
  ready w parent bounds 520 150 ->
  size sc == 50 ->
  intensity sc == 2 # 10 ->
  let e := elements w parent in
  edgeRight bounds (size sc) == 450 /\
  isEdgeRight bounds (size sc) 520 = true /\
  (520 - edgeRight bounds (size sc)) * intensity sc == 14 /\
  exists vL vT,
    log (frame sc w) =
      log w ++ [SetScrollLeft parent vL; SetScrollTop parent vT;
                OnScroll (onScroll sc) 520 150;
                RequestAnimationFrame (frameId (window w) + 1)] /\
    scrollLeft (elements (frame sc w) parent) = vL /\
    scrollTop (elements (frame sc w) parent) = vT /\
    vL == Math.max 0 (Math.min (Math.round (scrollLeft e + 14))
                               (scrollWidth e)) /\
    vT == Math.max 0 (Math.min (Math.round (scrollTop e)) (scrollHeight e)).
Proof.
  intros Hready Hs Hi e.
  assert (Er : edgeRight bounds (size sc) == 450)
    by (unfold edgeRight, bounds; cbn; lra).
  assert (Ir : isEdgeRight bounds (size sc) 520 = true)
    by (apply gtb_gt; lra).
  assert (Il : isEdgeLeft bounds (size sc) 520 = false)
    by (apply ltb_ge; unfold edgeLeft, bounds; cbn; lra).
  assert (It : isEdgeTop bounds (size sc) 150 = false)
    by (apply ltb_ge; unfold edgeTop, bounds; cbn; lra).
  assert (Ib : isEdgeBottom bounds (size sc) 150 = false)
    by (apply gtb_le; unfold edgeBottom, bounds; cbn; lra).
  assert (D : (520 - edgeRight bounds (size sc)) * intensity sc == 14)
    by (rewrite Er, Hi; reflexivity).
  assert (He : anyEdge bounds (size sc) 520 150 = true)
    by (unfold anyEdge; rewrite Ir; now rewrite !orb_true_r).
  repeat (split; [assumption |]).
  destruct (checkScroll_inside sc Hready He)
    as (w' & Hrun & Hlog & Hel & _).
  unfold frame. rewrite Hrun. cbn [world_of].
  eexists _, _. split; [exact Hlog |]. rewrite Hel. cbn.
  repeat split.
  - fold e. unfold nextScrollLeft. rewrite Il, Ir.
    apply sanitize_compat; [| reflexivity]. rewrite D. reflexivity.
  - fold e. rewrite nextScrollTop_idle by assumption. reflexivity.
Qed.

Lemma concrete_scenario_witness :
  exists vL vT,
    log (frame (destructure 1 defaults) (scenario 100 40 520 150)) =
      [SetScrollLeft 0%nat vL; SetScrollTop 0%nat vT; OnScroll noop 520 150;
       RequestAnimationFrame 2] /\
    vL == 114.
Proof.
  assert (R : ready (scenario 100 40 520 150) 0%nat bounds 520 150)
    by (repeat split).
  destruct (@concrete_scenario (destructure 1 defaults) _ _ R
              (Qeq_refl 50) (Qeq_refl (2 # 10)))
    as (_ & _ & _ & vL & vT & Hlog & _ & _ & HvL & _).
  exists vL, vT. split; [exact Hlog |].
  rewrite HvL. reflexivity.
Defined.

(** ** The loop *)

Lemma same_enabled_eq (a b : option bool) : same_enabled a b = true -> a = b.
Proof.
  destruct a as [[] |], b as [[] |]; cbn; intros H;
    try reflexivity; discriminate H.
Qed.

Lemma Forall_snoc {A : Type} (P : A -> Prop) (l : list A) (a : A) :
  Forall P l -> P a -> Forall P (l ++ [a]).
Proof.
  intros Hl Ha. apply Forall_app. split; [exact Hl | now constructor].
Qed.

Lemma rescheduled_turns (sc : Scope) (w : World) : turns sc w (rescheduled sc w).
Proof.
  unfold turns. repeat (split; [reflexivity |]).
  intros els _ [Hdim Hlog]. split; [exact Hdim |].
  cbn. apply Forall_snoc; [exact Hlog | exact I].
Qed.

(** Whatever the frame does, it completes and the loop goes on. *)
Lemma checkScroll_turns (sc : Scope) (w : World) :
  exists w', checkScroll sc w = Normal tt w' /\ turns sc w w'.
Proof.
  assert (Hstep : checkScroll sc w = checkStep sc w ->
                  exists w', checkScroll sc w = Normal tt w' /\ turns sc w w').
  { intros E. exists (rescheduled sc w). rewrite E, checkStep_rescheduled.
    split; [reflexivity | apply rescheduled_turns]. }
  destruct (parentRef (refs w)) as [parent |] eqn:Hp;
    [| apply Hstep, checkScroll_not_ready; auto].
  destruct (parentRectRef (refs w)) as [parentRect |] eqn:Hr;
    [| apply Hstep, checkScroll_not_ready; auto].
  destruct (positionXRef (refs w)) as [x |] eqn:Hx;
    [| apply Hstep, checkScroll_not_ready; auto].
  destruct (positionYRef (refs w)) as [y |] eqn:Hy;
    [| apply Hstep, checkScroll_not_ready; auto].
  assert (Hready : ready w parent parentRect x y) by (repeat split; assumption).
  destruct (anyEdge parentRect (size sc) x y) eqn:He;
    [| apply Hstep; now apply (checkScroll_outside sc Hready)].
  destruct (checkScroll_inside sc Hready He)
    as (w' & Hrun & Hlog & Hel & Hother & Hrefs & Hwin & Hls & Hfb).
  exists w'. split; [exact Hrun |].
  repeat (split; [assumption |]).
  intros els Hext [Hdim Hold]. split.
  - intros el. rewrite <- (proj1 (Hdim el)), <- (proj2 (Hdim el)).
    destruct (Nat.eq_dec el parent) as [-> | Hne].
    + rewrite Hel. cbn. auto.
    + rewrite (Hother el Hne). auto.
  - rewrite Hlog. apply Forall_app. split; [exact Hold |].
    destruct (Hext parent) as [Hw Hh]. destruct (Hdim parent) as [Ew Eh].
    repeat constructor; cbn; rewrite <- ?Ew, <- ?Eh;
      apply sanitize_range; rewrite ?Ew, ?Eh; assumption.
Qed.

Ltac conjs := repeat match goal with |- _ /\ _ => split end.

Lemma quietly_refl (w : World) : quietly w w.
Proof.
  split; [reflexivity |]. exists []. now rewrite app_nil_r.
Qed.

Lemma quietly_trans (w1 w2 w3 : World) :
  quietly w1 w2 -> quietly w2 w3 -> quietly w1 w3.
Proof.
  intros [E1 (a1 & L1 & S1)] [E2 (a2 & L2 & S2)]. split.
  - now rewrite E2.
  - exists (a1 ++ a2). rewrite L2, L1, <- app_assoc, filter_app, S1, S2. auto.
Qed.

Lemma quietly_scrolls (w w' : World) : quietly w w' -> scrolls w' = scrolls w.
Proof.
  intros [_ (a & L & S)]. unfold scrolls.
  now rewrite L, filter_app, S, app_nil_r.
Qed.

Lemma quiet_clamped (els : ElemId -> Element) (added : list Effect) :
  filter isScroll added = [] -> Forall (clamped els) added.
Proof.
  induction added as [| e added IH]; cbn; [constructor |].
  destruct e; cbn; try discriminate; intros H; constructor; auto; exact I.
Qed.

Lemma quietly_within (els : ElemId -> Element) (w w' : World) :
  quietly w w' -> within els w -> within els w'.
Proof.
  intros [E (a & L & S)] [Hdim Hlog]. split.
  - now rewrite E.
  - rewrite L. apply Forall_app. split; [exact Hlog | now apply quiet_clamped].
Qed.

(** [armed] and [idle] only look at the listeners, at the window and at
    [handleRef]. *)
Lemma looping_ext (pending : option Scope) (w w' : World) :
  listeners w' = listeners w -> window w' = window w ->
  handleRef (refs w') = handleRef (refs w) ->
  looping pending w -> looping pending w'.
Proof.
  intros El Ew Eh. unfold looping, armed, idle. rewrite El, Ew, Eh. auto.
Qed.

(** *** The clean-up *)

Lemma cleanupEnabled_armed (sc : Scope) (w : World) :
  armed sc w ->
  exists handle w',
    handleRef (refs w) = Some handle /\
    cleanupEnabled sc w = Normal tt w' /\
    idle w' /\
    elements w' = elements w /\
    fiber w' = fiber w /\
    frameId (window w') = frameId (window w) /\
    refs w' = {| handleRef := None; parentRef := parentRef (refs w);
                 parentRectRef := parentRectRef (refs w);
                 positionXRef := None; positionYRef := None |} /\
    log w' = log w ++ [CancelAnimationFrame handle;
                       RemoveEventListener mousemove (render sc);
                       RemoveEventListener touchmove (render sc)].
Proof.
  destruct w as [el0 [hr pr prr px py] [fid frs] ls fb lg].
  unfold armed, idle. cbn. intros (-> & h & -> & -> & Hh).
  exists h. unfold cleanupEnabled, bind, gets. cbn.
  assert (T : truthy_number h = true)
    by (unfold truthy_number; apply negb_true_iff, Z.eqb_neq; lia).
  rewrite T. cbn. rewrite Z.eqb_refl, Nat.eqb_refl. cbn.
  eexists. split; [reflexivity |]. split; [reflexivity |]. cbn.
  conjs; try reflexivity.
  - now rewrite Nat.eqb_refl.
  - now rewrite <- !app_assoc.
Qed.

Lemma cleanupEnabled_idle (sc : Scope) (w : World) :
  idle w ->
  exists w',
    cleanupEnabled sc w = Normal tt w' /\
    idle w' /\
    quietly w w' /\
    fiber w' = fiber w /\
    frameId (window w') = frameId (window w) /\
    refs w' = {| handleRef := None; parentRef := parentRef (refs w);
                 parentRectRef := parentRectRef (refs w);
                 positionXRef := None; positionYRef := None |}.
Proof.
  destruct w as [el0 [hr pr prr px py] [fid frs] ls fb lg].
  unfold idle, quietly. cbn. intros (-> & ->).
  unfold cleanupEnabled, bind, gets. cbn.
  destruct hr as [h |]; [destruct (truthy_number h) |]; cbn;
    (eexists; split; [reflexivity |]); cbn; conjs; try reflexivity;
    rewrite <- ?app_assoc; eexists; (split; [reflexivity |]); reflexivity.
Qed.

(** The clean-up that is pending, if any, leaves the loop idle. *)
Lemma pending_cleanup (pending : option Scope) (w : World) :
  looping pending w ->
  exists w',
    match pending with
    | Some old => cleanupEnabled old
    | None => ret tt
    end w = Normal tt w' /\
    idle w' /\
    quietly w w' /\
    fiber w' = fiber w /\
    frameId (window w') = frameId (window w).
Proof.
  destruct pending as [old |]; cbn.
  - destruct (truthy_bool (enabled old)).
    + intros H. destruct (cleanupEnabled_armed H)
        as (h & w' & _ & Hrun & Hidle & Hel & Hfb & Hid & _ & Hlog).
      exists w'. conjs; try assumption.
      split; [exact Hel |]. eexists. split; [exact Hlog | reflexivity].
    + intros H. destruct (cleanupEnabled_idle old H)
        as (w' & Hrun & Hidle & Hq & Hfb & Hid & _).
      exists w'. auto.
  - intros H. exists w. conjs; auto using quietly_refl.
Qed.

(** *** The effects *)

Section Effects.

Variable getScrollParent : ElemId -> ElemId.

Lemma effectReference_refs (sc : Scope) (w : World) :
  exists r,
    effectReference getScrollParent sc w = Normal tt (set_refs r w) /\
    handleRef r = handleRef (refs w) /\
    positionXRef r = positionXRef (refs w) /\
    positionYRef r = positionYRef (refs w).
Proof.
  unfold effectReference. destruct (reference sc) as [el |].
  - eexists. split; [reflexivity |]. cbn. auto.
  - exists (refs w). destruct w as [? [] ? ? ? ?]; cbn. auto.
Qed.

End Effects.

Lemma effectEnabled_idle (sc : Scope) (w : World) :
  idle w -> (0 <= frameId (window w))%Z ->
  exists w',
    effectEnabled sc w = Normal tt w' /\
    looping (Some sc) w' /\
    quietly w w' /\
    fiber w' = fiber w /\
    (0 <= frameId (window w'))%Z.
Proof.
  destruct w as [el0 [hr pr prr px py] [fid frs] ls fb lg].
  unfold idle, quietly, looping, armed, effectEnabled. cbn.
  intros (-> & ->) Hf. destruct (truthy_bool (enabled sc)).
  - unfold bind. cbn.
    eexists. split; [reflexivity |]. cbn. conjs; try reflexivity; try lia.
    + exists (fid + 1)%Z. conjs; try reflexivity; lia.
    + rewrite <- !app_assoc. eexists. split; reflexivity.
  - eexists. split; [reflexivity |]. cbn. conjs; try reflexivity; try lia.
    + split; reflexivity.
    + exists []. now rewrite app_nil_r.
Qed.

(** *** The events *)

Lemma set_refs_same (w : World) : set_refs (refs w) w = w.
Proof. now destruct w. Qed.

Section Loop.

Variable getScrollParent : ElemId -> ElemId.

Lemma reference_step (c : bool) (sc : Scope) (w : World) :
  exists r,
    (if c then effectReference getScrollParent sc else ret tt) w
      = Normal tt (set_refs r w) /\
    handleRef r = handleRef (refs w) /\
    positionXRef r = positionXRef (refs w) /\
    positionYRef r = positionYRef (refs w).
Proof.
  destruct c; [apply effectReference_refs |].
  exists (refs w). now rewrite set_refs_same.
Qed.

(** A render completes; it keeps the world consistent and mutates no
    scroll offset; if its [enabled] is falsy the loop is idle after it. *)
Lemma useAutoScroll_consistent (o : Options.t) (w : World) :
  consistent w -> unmounted (fiber w) = false ->
  exists w',
    useAutoScroll getScrollParent o w = Normal tt w' /\
    consistent w' /\
    quietly w w' /\
    unmounted (fiber w') = false /\
    (truthy_bool (Options.enabled o) = false -> idle w').
Proof.
  intros (Hf & Hloop & Hfb) Hum.
  unfold useAutoScroll, bind, gets.
  set (sc := destructure (S (renders (fiber w))) o).
  assert (Hen : enabled sc = Options.enabled o) by reflexivity.
  destruct (changed same_enabled (depsEnabled (fiber w)) (enabled sc))
    eqn:Hch.
  - destruct (@pending_cleanup _ _ Hloop)
      as (w1 & E1 & [Hl1 Hw1] & Hq1 & Hfb1 & Hid1).
    rewrite E1.
    destruct (reference_step
                (changed same_reference (depsReference (fiber w))
                   (reference sc)) sc w1) as (r & E2 & Hr & _).
    rewrite E2.
    destruct (@effectEnabled_idle sc (set_refs r w1))
      as (w3 & E3 & Hl3 & Hq3 & Hfb3 & Hid3);
      [split; assumption | cbn; lia |].
    rewrite E3. eexists. split; [reflexivity |].
    split; [| split; [| split]].
    + unfold consistent. cbn.
      conjs; [exact Hid3 | exact Hl3 | reflexivity | reflexivity].
    + apply (quietly_trans Hq1). exact Hq3.
    + reflexivity.
    + intros Hfalse. unfold looping in Hl3. rewrite Hen, Hfalse in Hl3.
      exact Hl3.
  - cbv beta iota. unfold ret at 1.
    destruct (reference_step
                (changed same_reference (depsReference (fiber w))
                   (reference sc)) sc w) as (r & E2 & Hr & _).
    rewrite E2. unfold ret at 1. eexists. split; [reflexivity |].
    destruct (cleanup (fiber w)) as [old |] eqn:Hcl.
    + destruct Hfb as [Hu Hd]. rewrite Hd in Hch. cbn in Hch.
      apply negb_false_iff, same_enabled_eq in Hch.
      split; [| split; [| split]].
      * unfold consistent. split; [exact Hf | split].
        -- apply looping_ext with (w := w);
             [reflexivity | reflexivity | exact Hr | exact Hloop].
        -- cbn. split; [reflexivity | now rewrite Hch].
      * exact (quietly_refl w).
      * reflexivity.
      * intros Hfalse. unfold looping in Hloop.
        rewrite Hch, Hfalse in Hloop. exact Hloop.
    + (* no clean-up is pending only before the first render or after
         the unmounting *)
      rewrite (Hfb Hum) in Hch. discriminate Hch.
Qed.



Lemma unmount_consistent (w : World) :
  consistent w ->
  exists w',
    unmount w = Normal tt w' /\
    consistent w' /\
    quietly w w' /\
    idle w'.
Proof.
  intros (Hf & Hloop & Hfb). unfold unmount, bind, gets.
  destruct (@pending_cleanup _ _ Hloop)
    as (w1 & E1 & Hidle & Hq1 & Hfb1 & Hid1).
  rewrite E1. eexists. split; [reflexivity |].
  split; [| split]; try assumption.
  unfold consistent. cbn. rewrite Hid1.
  conjs; [exact Hf | exact Hidle | discriminate].
Qed.


(** A frame of an armed loop runs the one waiting callback, which leaves
    the loop armed; a frame of an idle loop runs nothing. *)
Lemma animationFrame_idle (w : World) : idle w -> animationFrame w = w.
Proof.
  intros [_ Hfr]. unfold animationFrame. now rewrite Hfr.
Qed.

Lemma animationFrame_armed (sc : Scope) (w : World) :
  armed sc w ->
  exists w',
    animationFrame w = w' /\
    armed sc w' /\
    fiber w' = fiber w /\
    (frameId (window w') = frameId (window w) + 1)%Z /\
    forall els, extents els -> within els w -> within els w'.
Proof.
  intros (Hls & h & Hh & Hfr & Hpos).
  unfold animationFrame, runFrame. rewrite Hfr. cbn. rewrite Hfr. cbn.
  rewrite Z.eqb_refl. cbn.
  set (w0 := set_window _ w).
  destruct (checkScroll_turns sc w0)
    as (w' & Hrun & Hrefs & Hwin & Hls' & Hfb & Hwithin).
  unfold report. rewrite Hrun. exists w'.
  split; [reflexivity |]. split; [| split; [| split]].
  - split; [now rewrite Hls' |].
    exists (frameId (window w) + 1)%Z. rewrite Hrefs, Hwin. cbn.
    conjs; try reflexivity; lia.
  - now rewrite Hfb.
  - now rewrite Hwin.
  - intros els Hext Hw. apply (Hwithin els Hext). exact Hw.
Qed.

(** The pointer handlers write the two position cells and nothing else. *)
Lemma handleMouseMove_refs (e : MouseEvent.t) (w : World) :
  exists r added,
    report (handleMouseMove e) w = set_log (log w ++ added) (set_refs r w) /\
    handleRef r = handleRef (refs w) /\
    filter isScroll added = [].
Proof.
  exists {| handleRef := handleRef (refs w);
            parentRef := parentRef (refs w);
            parentRectRef := parentRectRef (refs w);
            positionXRef := Some (MouseEvent.clientX e);
            positionYRef := Some (MouseEvent.clientY e) |}, [].
  split; [| split; reflexivity].
  destruct w as [? ? ? ? ? lg].
  unfold report, handleMouseMove, bind, set_log, set_refs. cbn.
  now rewrite app_nil_r.
Qed.

Lemma handleTouchMove_refs (e : TouchEvent.t) (w : World) :
  exists r added,
    report (handleTouchMove e) w = set_log (log w ++ added) (set_refs r w) /\
    handleRef r = handleRef (refs w) /\
    filter isScroll added = [].
Proof.
  destruct e as [[| touch rest]].
  - exists (refs w), [Uncaught]. rewrite set_refs_same. auto.
  - exists {| handleRef := handleRef (refs w);
              parentRef := parentRef (refs w);
              parentRectRef := parentRectRef (refs w);
              positionXRef := Some (Touch.clientX touch);
              positionYRef := Some (Touch.clientY touch) |}, [].
    split; [| split; reflexivity].
    destruct w as [? ? ? ? ? lg].
    unfold report, handleTouchMove, firstTouch, bind, set_log, set_refs.
    cbn. now rewrite app_nil_r.
Qed.

Lemma dispatch_refs (type : EventType) (handler : JS unit) :
  (forall w, exists r added,
     report handler w = set_log (log w ++ added) (set_refs r w) /\
     handleRef r = handleRef (refs w) /\
     filter isScroll added = []) ->
  forall w, exists r added,
    dispatch type handler w = set_log (log w ++ added) (set_refs r w) /\
    handleRef r = handleRef (refs w) /\
    filter isScroll added = [].
Proof.
  intros Hh w. unfold dispatch. generalize (listeners w) as ls.
  intros ls. revert w.
  induction ls as [| l ls IH]; intros w; cbn.
  - exists (refs w), []. rewrite app_nil_r, set_refs_same.
    destruct w; auto.
  - destruct (EventType_eqb (fst l) type); [| apply IH].
    destruct (Hh w) as (r1 & a1 & E1 & H1 & S1). rewrite E1.
    destruct (IH (set_log (log w ++ a1) (set_refs r1 w)))
      as (r2 & a2 & E2 & H2 & S2).
    exists r2, (a1 ++ a2). rewrite E2. cbn in *.
    split; [| split].
    + unfold set_log, set_refs. cbn. now rewrite app_assoc.
    + now rewrite H2.
    + now rewrite filter_app, S1, S2.
Qed.

Lemma pointer_stable (r : Refs) (added : list Effect) (w : World) :
  handleRef r = handleRef (refs w) ->
  filter isScroll added = [] ->
  let w' := set_log (log w ++ added) (set_refs r w) in
  (consistent w -> consistent w') /\ quietly w w'.
Proof.
  intros Hr Hs w'. split.
  - intros (Hf & Hloop & Hfb). split; [exact Hf | split; [| exact Hfb]].
    apply looping_ext with (w := w);
      [reflexivity | reflexivity | exact Hr | exact Hloop].
  - split; [reflexivity |]. exists added. auto.
Qed.

(** *** Every step, every run *)

Lemma step_consistent (w : World) (ev : Event) :
  consistent w -> consistent (step getScrollParent w ev).
Proof.
  intros Hc. destruct ev as [o | | | e | e]; cbn.
  - destruct (unmounted (fiber w)) eqn:Hum; [exact Hc |].
    destruct (useAutoScroll_consistent o Hc Hum) as (w' & E & Hc' & _).
    unfold report. now rewrite E.
  - destruct (unmounted (fiber w)) eqn:Hum; [exact Hc |].
    destruct (unmount_consistent Hc) as (w' & E & Hc' & _).
    unfold report. now rewrite E.
  - pose proof Hc as (Hf & Hloop & Hfb).
    destruct (cleanup (fiber w)) as [sc |] eqn:Hcl;
      [| now rewrite (animationFrame_idle Hloop)].
    unfold looping in Hloop.
    destruct (truthy_bool (enabled sc)) eqn:Hen;
      [| now rewrite (animationFrame_idle Hloop)].
    destruct (animationFrame_armed Hloop)
      as (w' & -> & Harm & Hfb' & Hid & _).
    unfold consistent. rewrite Hfb', Hcl, Hid.
    split; [lia | split; [| exact Hfb]].
    unfold looping. now rewrite Hen.
  - destruct (@dispatch_refs mousemove _ (handleMouseMove_refs e) w)
      as (r & added & -> & Hr & Hs).
    now apply (@pointer_stable r added w Hr Hs).
  - destruct (@dispatch_refs touchmove _ (handleTouchMove_refs e) w)
      as (r & added & -> & Hr & Hs).
    now apply (@pointer_stable r added w Hr Hs).
Qed.

Lemma step_within (els : ElemId -> Element) (w : World) (ev : Event) :
  extents els -> consistent w -> within els w ->
  within els (step getScrollParent w ev).
Proof.
  intros Hext Hc Hw. destruct ev as [o | | | e | e]; cbn.
  - destruct (unmounted (fiber w)) eqn:Hum; [exact Hw |].
    destruct (useAutoScroll_consistent o Hc Hum) as (w' & E & _ & Hq & _).
    unfold report. rewrite E. now apply (quietly_within Hq).
  - destruct (unmounted (fiber w)) eqn:Hum; [exact Hw |].
    destruct (unmount_consistent Hc) as (w' & E & _ & Hq & _).
    unfold report. rewrite E. now apply (quietly_within Hq).
  - destruct Hc as (Hf & Hloop & Hfb).
    destruct (cleanup (fiber w)) as [sc |] eqn:Hcl;
      [| now rewrite (animationFrame_idle Hloop)].
    unfold looping in Hloop.
    destruct (truthy_bool (enabled sc)) eqn:Hen;
      [| now rewrite (animationFrame_idle Hloop)].
    destruct (animationFrame_armed Hloop) as (w' & -> & _ & _ & _ & Hwithin).
    now apply Hwithin.
  - destruct (@dispatch_refs mousemove _ (handleMouseMove_refs e) w)
      as (r & added & -> & Hr & Hs).
    destruct (@pointer_stable r added w Hr Hs) as [_ Hq].
    now apply (quietly_within Hq).
  - destruct (@dispatch_refs touchmove _ (handleTouchMove_refs e) w)
      as (r & added & -> & Hr & Hs).
    destruct (@pointer_stable r added w Hr Hs) as [_ Hq].
    now apply (quietly_within Hq).
Qed.

Lemma initial_consistent (els : ElemId -> Element) : consistent (initial els).
Proof.
  repeat split; cbn; auto; lia.
Qed.

Lemma initial_within (els : ElemId -> Element) : within els (initial els).
Proof.
  split; cbn; auto.
Qed.

Lemma run_consistent (evs : list Event) (w : World) :
  consistent w -> consistent (run getScrollParent evs w).
Proof.
  revert w. induction evs as [| ev evs IH]; intros w Hc; cbn; [exact Hc |].
  apply IH. now apply step_consistent.
Qed.

Lemma run_within (els : ElemId -> Element) (evs : list Event) (w : World) :
  extents els -> consistent w -> within els w ->
  within els (run getScrollParent evs w).
Proof.
  intros Hext. revert w.
  induction evs as [| ev evs IH]; intros w Hc Hw; cbn; [exact Hw |].
  apply IH; [now apply step_consistent | now apply step_within].
Qed.



(** ** Clamping *)

(** C5.  Whatever offset is computed, the offset assigned lies in
    [[0, scrollWidth]], for the vertical axis in [[0, scrollHeight]]; so
    does every scroll mutation of every run of the loop. *)
Theorem clamping_invariant (els : ElemId -> Element) (evs : list Event) :
  extents els ->
  (forall next el,
     0 <= sanitize next (scrollWidth (els el)) <= scrollWidth (els el) /\
     0 <= sanitize next (scrollHeight (els el)) <= scrollHeight (els el)) /\
  Forall (clamped els) (log (run getScrollParent evs (initial els))).
Proof.
  intros Hext. split.
  - intros next el. destruct (Hext el).
    split; now apply sanitize_range.
  - apply run_within;
      [exact Hext | apply initial_consistent | apply initial_within].
Qed.

(** ** Lifecycle *)


End Loop.

Lemma clamping_invariant_witness :
  Forall (clamped (elements (scenario 100 40 0 0)))
    (log (run (fun el => el) (mounting ++ disabling :: lingering)
            (initial (elements (scenario 100 40 0 0))))).
Proof.
  refine (proj2 (@clamping_invariant (fun el => el)
                   (elements (scenario 100 40 0 0))
                   (mounting ++ disabling :: lingering) _)).
  intros el. split; vm_compute; intros H; discriminate H.
Defined.


(** ** Touch events *)

(** The first target touch gives the position; the other touches are not
    looked at. *)
Lemma handleTouchMove_first (touch : Touch.t) (rest : list Touch.t)
  (w : World) :
  exists w',
    handleTouchMove {| TouchEvent.targetTouches := touch :: rest |} w
      = Normal tt w' /\
    positionXRef (refs w') = Some (Touch.clientX touch) /\
    positionYRef (refs w') = Some (Touch.clientY touch).
Proof.
  eexists. split; [reflexivity |]. split; reflexivity.
Qed.

(** C8, at the input at which it fails.  A [touchmove] event whose list of
    target touches is empty makes [handleTouchMove] throw a [TypeError]
    before it writes anything; dispatched to an armed loop, the exception
    is the one thing the event leaves in the log. *)
Theorem touch_move_empty_throws (w : World) :
  handleTouchMove {| TouchEvent.targetTouches := [] |} w = Throw TypeError w /\
  log (step (fun el => el) (scenario 100 40 520 150)
         (TouchMove {| TouchEvent.targetTouches := [] |})) = [Uncaught].
Proof.
  split; reflexivity.
Qed.

(** * Further properties *)

(** ** Rounding *)

Lemma Qfloor_between (n : Z) (x : Q) :
  inject_Z n <= x -> x < inject_Z (n + 1) -> Qfloor x = n.
Proof.
  intros Hlo Hhi.
  assert (H1 : (n <= Qfloor x)%Z)
    by (rewrite <- (Qfloor_Z n); now apply Qfloor_resp_le).
  assert (H2 : (Qfloor x < n + 1)%Z).
  { rewrite Zlt_Qlt. apply Qle_lt_trans with x; [apply Qfloor_le | exact Hhi]. }
  lia.
Qed.

Lemma round_near (n : Z) (d : Q) :
  - (1 # 2) <= d -> d < 1 # 2 -> Math.round (inject_Z n + d) == inject_Z n.
Proof.
  intros Hlo Hhi. unfold Math.round.
  rewrite (@Qfloor_between n); [reflexivity | lra |].
  rewrite inject_Z_plus. change (inject_Z 1) with 1. lra.
Qed.

Lemma round_monotone (x y : Q) : x <= y -> Math.round x <= Math.round y.
Proof.
  intros H. unfold Math.round. rewrite <- Zle_Qle.
  apply Qfloor_resp_le. lra.
Qed.

Lemma round_integer (n : Z) : Math.round (inject_Z n) == inject_Z n.
Proof.
  rewrite <- (round_near n (d := 0)) at 2; [| lra | lra].
  apply round_compat. lra.
Qed.

Lemma sanitize_monotone (x y dimension : Q) :
  x <= y -> sanitize x dimension <= sanitize y dimension.
Proof.
  intros H. unfold sanitize, Math.max, Math.min.
  apply Q.max_le_compat_l, Q.min_le_compat_r, round_monotone, H.
Qed.

Lemma sanitize_integer (n : Z) (dimension : Q) :
  0 <= inject_Z n -> inject_Z n <= dimension ->
  sanitize (inject_Z n) dimension == inject_Z n.
Proof.
  intros H0 Hd. unfold sanitize, Math.max, Math.min.
  rewrite round_integer, Q.min_l, Q.max_r by assumption. reflexivity.
Qed.

Lemma sanitize_near (n : Z) (d dimension : Q) :
  0 <= inject_Z n -> inject_Z n <= dimension ->
  - (1 # 2) <= d -> d < 1 # 2 ->
  sanitize (inject_Z n + d) dimension == inject_Z n.
Proof.
  intros H0 Hd Hlo Hhi. unfold sanitize, Math.max, Math.min.
  rewrite round_near by assumption.
  rewrite Q.min_l, Q.max_r by assumption. reflexivity.
Qed.

Lemma sanitize_integral (next dimension : Q) :
  integral dimension -> integral (sanitize next dimension).
Proof.
  intros [d Hd]. unfold sanitize, Math.max, Math.min, Math.round.
  exists (Z.max 0 (Z.min (Qfloor (next + (1 # 2))) d)).
  rewrite Hd.
  destruct (Z.min_spec (Qfloor (next + (1 # 2))) d) as [[Hlt ->] | [Hle ->]].
  - rewrite Q.min_l by (rewrite <- Zle_Qle; lia).
    destruct (Z.max_spec 0 (Qfloor (next + (1 # 2)))) as [[H ->] | [H ->]].
    + rewrite Q.max_r by (change 0 with (inject_Z 0); rewrite <- Zle_Qle; lia).
      reflexivity.
    + rewrite Q.max_l by (change 0 with (inject_Z 0); rewrite <- Zle_Qle; lia).
      reflexivity.
  - rewrite Q.min_r by (rewrite <- Zle_Qle; lia).
    destruct (Z.max_spec 0 d) as [[H ->] | [H ->]].
    + rewrite Q.max_r by (change 0 with (inject_Z 0); rewrite <- Zle_Qle; lia).
      reflexivity.
    + rewrite Q.max_l by (change 0 with (inject_Z 0); rewrite <- Zle_Qle; lia).
      reflexivity.
Qed.

(** ** One axis of a frame *)

(** The vertical axis is the horizontal one of the transposed rectangle. *)
Lemma nextScrollTop_transpose (parentRect : DOMRect.t)
  (size intensity s y : Q) :
  nextScrollTop parentRect size intensity s y =
  nextScrollLeft (transpose parentRect) size intensity s y.
Proof. reflexivity. Qed.

Lemma round_half_up (n : Z) (d : Q) :
  1 # 2 <= d -> inject_Z n + 1 <= Math.round (inject_Z n + d).
Proof.
  intros H.
  apply Qle_trans with (Math.round (inject_Z n + (1 # 2)));
    [| apply round_monotone; lra].
  unfold Math.round. rewrite (@Qfloor_between (n + 1)).
  - rewrite inject_Z_plus. change (inject_Z 1) with 1. lra.
  - rewrite inject_Z_plus. change (inject_Z 1) with 1. lra.
  - rewrite !inject_Z_plus. change (inject_Z 1) with 1. lra.
Qed.

Lemma round_below (n : Z) (d : Q) :
  1 # 2 < d -> Math.round (inject_Z n - d) <= inject_Z n - 1.
Proof.
  intros H. unfold Math.round.
  assert (Hz : (Qfloor (inject_Z n - d + (1 # 2)) < n)%Z).
  { rewrite Zlt_Qlt.
    apply Qle_lt_trans with (inject_Z n - d + (1 # 2));
      [apply Qfloor_le | lra]. }
  assert (Hz' : (Qfloor (inject_Z n - d + (1 # 2)) <= n + -1)%Z) by lia.
  rewrite Zle_Qle, inject_Z_plus in Hz'.
  change (inject_Z (-1)) with (-(1)) in Hz'. lra.
Qed.

Lemma axis_kept (parentRect : DOMRect.t) (size intensity s dimension x : Q) :
  isEdgeLeft parentRect size x = false ->
  isEdgeRight parentRect size x = false ->
  integral s -> 0 <= s -> s <= dimension ->
  sanitize (nextScrollLeft parentRect size intensity s x) dimension == s.
Proof.
  intros Hl Hr [n Hn] H0 Hd. rewrite nextScrollLeft_idle by assumption.
  rewrite Hn in *. now apply sanitize_integer.
Qed.

Lemma axis_dead_left (parentRect : DOMRect.t)
  (size intensity s dimension x : Q) :
  0 <= intensity ->
  appliesLeft parentRect size x = true ->
  (edgeLeft parentRect size - x) * intensity <= 1 # 2 ->
  integral s -> 0 <= s -> s <= dimension ->
  sanitize (nextScrollLeft parentRect size intensity s x) dimension == s.
Proof.
  intros Hi Ha Hdepth [n Hn] H0 Hd.
  unfold nextScrollLeft. unfold appliesLeft in Ha. rewrite Ha.
  apply ltb_lt in Ha. rewrite Hn in *.
  setoid_replace (inject_Z n - (edgeLeft parentRect size - x) * intensity)
    with (inject_Z n + - ((edgeLeft parentRect size - x) * intensity))
    by ring.
  apply sanitize_near; try assumption; nra.
Qed.

Lemma axis_dead_right (parentRect : DOMRect.t)
  (size intensity s dimension x : Q) :
  0 <= intensity ->
  appliesRight parentRect size x = true ->
  (x - edgeRight parentRect size) * intensity < 1 # 2 ->
  integral s -> 0 <= s -> s <= dimension ->
  sanitize (nextScrollLeft parentRect size intensity s x) dimension == s.
Proof.
  intros Hi Ha Hdepth [n Hn] H0 Hd.
  unfold nextScrollLeft. unfold appliesRight in Ha.
  apply andb_true_iff in Ha. destruct Ha as [Hl Hr].
  apply negb_true_iff in Hl. rewrite Hl, Hr.
  apply gtb_gt in Hr. rewrite Hn in *.
  apply sanitize_near; try assumption; nra.
Qed.

Lemma axis_moves_right (parentRect : DOMRect.t)
  (size intensity s dimension x : Q) :
  appliesRight parentRect size x = true ->
  1 # 2 <= (x - edgeRight parentRect size) * intensity ->
  integral s -> 0 <= s -> s < dimension ->
  s < sanitize (nextScrollLeft parentRect size intensity s x) dimension /\
  sanitize (nextScrollLeft parentRect size intensity s x) dimension
    <= dimension.
Proof.
  intros Ha Hdepth [n Hn] H0 Hd. split; [| apply sanitize_range; lra].
  unfold nextScrollLeft. unfold appliesRight in Ha.
  apply andb_true_iff in Ha. destruct Ha as [Hl Hr].
  apply negb_true_iff in Hl. rewrite Hl, Hr.
  rewrite Hn in *. unfold sanitize, Math.max, Math.min.
  pose proof (round_half_up n Hdepth) as Hup.
  apply Qlt_le_trans with
    (Qmin (Math.round (inject_Z n + (x - edgeRight parentRect size) * intensity))
          dimension); [| apply Q.le_max_r].
  apply Q.min_glb_lt; lra.
Qed.

Lemma axis_moves_left (parentRect : DOMRect.t)
  (size intensity s dimension x : Q) :
  appliesLeft parentRect size x = true ->
  1 # 2 < (edgeLeft parentRect size - x) * intensity ->
  integral s -> 0 < s -> s <= dimension ->
  0 <= sanitize (nextScrollLeft parentRect size intensity s x) dimension /\
  sanitize (nextScrollLeft parentRect size intensity s x) dimension < s.
Proof.
  intros Ha Hdepth [n Hn] H0 Hd. split; [apply sanitize_range; lra |].
  unfold nextScrollLeft. unfold appliesLeft in Ha. rewrite Ha.
  rewrite Hn in *. unfold sanitize, Math.max, Math.min.
  pose proof (round_below n Hdepth) as Hdown.
  assert (H1 : 1 <= inject_Z n).
  { change 1 with (inject_Z 1). rewrite <- Zle_Qle.
    change 0 with (inject_Z 0) in H0. rewrite <- Zlt_Qlt in H0. lia. }
  apply Q.max_lub_lt; [lra |].
  apply Qle_lt_trans with
    (Math.round (inject_Z n - (edgeLeft parentRect size - x) * intensity));
    [apply Q.le_min_l | lra].
Qed.

(** ** The offsets after a frame *)

Lemma frame_offsets (sc : Scope) (w : World) (parent : ElemId)
  (parentRect : DOMRect.t) (x y : Q) :
  ready w parent parentRect x y ->
  let e := elements w parent in
  scrollLeft (elements (frame sc w) parent) =
    (if anyEdge parentRect (size sc) x y
     then sanitize (nextScrollLeft parentRect (size sc) (intensity sc)
                      (scrollLeft e) x) (scrollWidth e)
     else scrollLeft e) /\
  scrollTop (elements (frame sc w) parent) =
    (if anyEdge parentRect (size sc) x y
     then sanitize (nextScrollTop parentRect (size sc) (intensity sc)
                      (scrollTop e) y) (scrollHeight e)
     else scrollTop e).
Proof.
  intros Hready e. unfold frame.
  destruct (anyEdge parentRect (size sc) x y) eqn:He.
  - destruct (checkScroll_inside sc Hready He) as (w' & Hrun & _ & Hel & _).
    rewrite Hrun. cbn [world_of]. rewrite Hel. split; reflexivity.
  - rewrite (checkScroll_outside sc Hready He), checkStep_rescheduled.
    split; reflexivity.
Qed.





(** X1.  An axis none of whose gutters holds the pointer keeps an offset
    that is an integer within its range, whether or not the frame writes:
    the value written back is the value read. *)
Theorem idle_axis_kept (sc : Scope) (w : World) (parent : ElemId)
  (parentRect : DOMRect.t) (x y : Q) :
  ready w parent parentRect x y ->
  let e := elements w parent in
  (isEdgeLeft parentRect (size sc) x = false ->
   isEdgeRight parentRect (size sc) x = false ->
   integral (scrollLeft e) ->
   0 <= scrollLeft e -> scrollLeft e <= scrollWidth e ->
   scrollLeft (elements (frame sc w) parent) == scrollLeft e) /\
  (isEdgeTop parentRect (size sc) y = false ->
   isEdgeBottom parentRect (size sc) y = false ->
   integral (scrollTop e) ->
   0 <= scrollTop e -> scrollTop e <= scrollHeight e ->
   scrollTop (elements (frame sc w) parent) == scrollTop e).
Proof.
  intros Hready e. destruct (frame_offsets sc Hready) as [HL HT].
  fold e in HL, HT. split.
  - intros Hl Hr Hint H0 Hd. rewrite HL.
    destruct (anyEdge parentRect (size sc) x y); [| reflexivity].
    now apply axis_kept.
  - intros Ht Hb Hint H0 Hd. rewrite HT.
    destruct (anyEdge parentRect (size sc) x y); [| reflexivity].
    rewrite nextScrollTop_transpose. now apply axis_kept.
Qed.

Lemma idle_axis_kept_witness :
  scrollTop (elements (frame (destructure 1 defaults)
                         (scenario 100 40 520 150)) 0%nat) == 40.
Proof.
  assert (R : ready (scenario 100 40 520 150) 0%nat bounds 520 150)
    by (repeat split).
  refine (proj2 (idle_axis_kept (destructure 1 defaults) R) _ _ _ _ _);
    try reflexivity.
  - exists 40%Z. reflexivity.
  - vm_compute. intros H. discriminate H.
  - vm_compute. intros H. discriminate H.
Defined.

(** What a frame assigns when the position is within a gutter. *)
Lemma frame_assigns (sc : Scope) (w : World) (parent : ElemId)
  (parentRect : DOMRect.t) (x y : Q) :
  ready w parent parentRect x y ->
  anyEdge parentRect (size sc) x y = true ->
  let e := elements w parent in
  log (frame sc w) =
    log w ++ [SetScrollLeft parent
                (sanitize (nextScrollLeft parentRect (size sc) (intensity sc)
                             (scrollLeft e) x) (scrollWidth e));
              SetScrollTop parent
                (sanitize (nextScrollTop parentRect (size sc) (intensity sc)
                             (scrollTop e) y) (scrollHeight e));
              OnScroll (onScroll sc) x y;
              RequestAnimationFrame (frameId (window w) + 1)].
Proof.
  intros Hready He e. unfold frame.
  destruct (checkScroll_inside sc Hready He) as (w' & Hrun & Hlog & _).
  rewrite Hrun. exact Hlog.
Qed.

(** X2.  The dead zone of the rounding.  With a non-negative intensity and
    an offset that is an integer within its range, a frame whose pointer is
    so little into a gutter that the delta the code computes is small
    assigns the offset it has read: towards the left and the top when the
    delta is at most one half, because [Math.round] sends a tie upwards,
    towards the right and the bottom when it is at most one quarter. *)
Theorem dead_zone (sc : Scope) (w : World) (parent : ElemId)
  (parentRect : DOMRect.t) (x y : Q) :
  ready w parent parentRect x y ->
  anyEdge parentRect (size sc) x y = true ->
  0 <= intensity sc ->
  let e := elements w parent in
  exists vL vT,
    log (frame sc w) =
      log w ++ [SetScrollLeft parent vL; SetScrollTop parent vT;
                OnScroll (onScroll sc) x y;
                RequestAnimationFrame (frameId (window w) + 1)] /\
    (integral (scrollLeft e) ->
     0 <= scrollLeft e -> scrollLeft e <= scrollWidth e ->
     scrollWidth e <= maxExtent ->
     (appliesLeft parentRect (size sc) x = true /\
      deltaLeft parentRect (size sc) (intensity sc) x <= 1 # 2) \/
     (appliesRight parentRect (size sc) x = true /\
      deltaRight parentRect (size sc) (intensity sc) x <= 1 # 4) ->
     vL == scrollLeft e) /\
    (integral (scrollTop e) ->
     0 <= scrollTop e -> scrollTop e <= scrollHeight e ->
     scrollHeight e <= maxExtent ->
     (appliesTop parentRect (size sc) y = true /\
      deltaTop parentRect (size sc) (intensity sc) y <= 1 # 2) \/
     (appliesBottom parentRect (size sc) y = true /\
      deltaBottom parentRect (size sc) (intensity sc) y <= 1 # 4) ->
     vT == scrollTop e).
Proof.
  intros Hready He Hi e.
  eexists. eexists. split; [exact (frame_assigns sc Hready He) |].
  fold e. split; intros Hint H0 Hd _ Hcase.
  - destruct Hcase as [[Ha Hdepth] | [Ha Hdepth]].
    + now apply axis_dead_left.
    + apply axis_dead_right; try assumption.
      unfold deltaRight in Hdepth. lra.
  - rewrite nextScrollTop_transpose.
    destruct Hcase as [[Ha Hdepth] | [Ha Hdepth]].
    + now apply (@axis_dead_left (transpose parentRect)).
    + apply (@axis_dead_right (transpose parentRect)); try assumption.
      unfold deltaBottom in Hdepth.
      change (edgeRight (transpose parentRect) (size sc))
        with (edgeBottom parentRect (size sc)).
      lra.
Qed.

Lemma dead_zone_witness :
  exists vL vT,
    log (frame (destructure 1 defaults) (scenario 100 40 451 150)) =
      [SetScrollLeft 0%nat vL; SetScrollTop 0%nat vT;
       OnScroll noop 451 150; RequestAnimationFrame 2] /\
    vL == 100.
Proof.
  assert (R : ready (scenario 100 40 451 150) 0%nat bounds 451 150)
    by (repeat split).
  assert (E : anyEdge bounds (size (destructure 1 defaults)) 451 150 = true)
    by reflexivity.
  assert (I : 0 <= intensity (destructure 1 defaults))
    by (vm_compute; intros H; discriminate H).
  destruct (dead_zone (destructure 1 defaults) R E I)
    as (vL & vT & Hlog & HL & _).
  exists vL, vT. split; [exact Hlog |].
  apply HL.
  - exists 100%Z. reflexivity.
  - vm_compute. intros H. discriminate H.
  - vm_compute. intros H. discriminate H.
  - vm_compute. intros H. discriminate H.
  - right. split; [reflexivity |]. vm_compute. intros H. discriminate H.
Defined.

(** X3.  Past the dead zone the offset assigned differs from the one read.
    With an offset that is an integer: when the right (bottom) delta the
    code computes is at least one half, the value assigned for an offset
    below the scroll extent is strictly larger, and not beyond the extent;
    when the left (top) delta is at least three quarters, the value
    assigned for a positive offset is strictly smaller, and not below
    zero. *)
Theorem past_threshold (sc : Scope) (w : World) (parent : ElemId)
  (parentRect : DOMRect.t) (x y : Q) :
  ready w parent parentRect x y ->
  anyEdge parentRect (size sc) x y = true ->
  let e := elements w parent in
  exists vL vT,
    log (frame sc w) =
      log w ++ [SetScrollLeft parent vL; SetScrollTop parent vT;
                OnScroll (onScroll sc) x y;
                RequestAnimationFrame (frameId (window w) + 1)] /\
    (integral (scrollLeft e) -> scrollWidth e <= maxExtent ->
     (appliesRight parentRect (size sc) x = true ->
      1 # 2 <= deltaRight parentRect (size sc) (intensity sc) x ->
      0 <= scrollLeft e -> scrollLeft e < scrollWidth e ->
      scrollLeft e < vL /\ vL <= scrollWidth e) /\
     (appliesLeft parentRect (size sc) x = true ->
      3 # 4 <= deltaLeft parentRect (size sc) (intensity sc) x ->
      0 < scrollLeft e -> scrollLeft e <= scrollWidth e ->
      0 <= vL /\ vL < scrollLeft e)) /\
    (integral (scrollTop e) -> scrollHeight e <= maxExtent ->
     (appliesBottom parentRect (size sc) y = true ->
      1 # 2 <= deltaBottom parentRect (size sc) (intensity sc) y ->
      0 <= scrollTop e -> scrollTop e < scrollHeight e ->
      scrollTop e < vT /\ vT <= scrollHeight e) /\
     (appliesTop parentRect (size sc) y = true ->
      3 # 4 <= deltaTop parentRect (size sc) (intensity sc) y ->
      0 < scrollTop e -> scrollTop e <= scrollHeight e ->
      0 <= vT /\ vT < scrollTop e)).
Proof.
  intros Hready He e.
  eexists. eexists. split; [exact (frame_assigns sc Hready He) |].
  fold e. split; intros Hint _; split; intros Ha Hdepth H0 Hd.
  - now apply axis_moves_right.
  - apply axis_moves_left; try assumption.
    unfold deltaLeft in Hdepth. lra.
  - rewrite nextScrollTop_transpose.
    now apply (@axis_moves_right (transpose parentRect)).
  - rewrite nextScrollTop_transpose.
    apply (@axis_moves_left (transpose parentRect)); try assumption.
    unfold deltaTop in Hdepth.
    change (edgeLeft (transpose parentRect) (size sc))
      with (edgeTop parentRect (size sc)).
    lra.
Qed.

Lemma past_threshold_witness :
  exists vL vT,
    log (frame (destructure 1 defaults) (scenario 100 40 520 150)) =
      [SetScrollLeft 0%nat vL; SetScrollTop 0%nat vT;
       OnScroll noop 520 150; RequestAnimationFrame 2] /\
    100 < vL.
Proof.
  assert (R : ready (scenario 100 40 520 150) 0%nat bounds 520 150)
    by (repeat split).
  assert (E : anyEdge bounds (size (destructure 1 defaults)) 520 150 = true)
    by reflexivity.
  destruct (past_threshold (destructure 1 defaults) R E)
    as (vL & vT & Hlog & HL & _).
  exists vL, vT. split; [exact Hlog |].
  assert (Z : integral (scrollLeft (elements (scenario 100 40 520 150) 0%nat)))
    by (exists 100%Z; reflexivity).
  assert (M : scrollWidth (elements (scenario 100 40 520 150) 0%nat)
              <= maxExtent)
    by (vm_compute; intros H; discriminate H).
  refine (proj1 (proj1 (HL Z M) _ _ _ _)).
  - reflexivity.
  - vm_compute. intros H. discriminate H.
  - vm_compute. intros H. discriminate H.
  - reflexivity.
Defined.

(** X4.  When the scroll extents are integers, as the DOM reports them,
    every offset a frame assigns is an integer. *)
Theorem assigned_integral (sc : Scope) (w : World) (parent : ElemId)
  (parentRect : DOMRect.t) (x y : Q) :
  ready w parent parentRect x y ->
  anyEdge parentRect (size sc) x y = true ->
  integral (scrollWidth (elements w parent)) ->
  integral (scrollHeight (elements w parent)) ->
  integral (scrollLeft (elements (frame sc w) parent)) /\
  integral (scrollTop (elements (frame sc w) parent)).
Proof.
  intros Hready He Hw Hh. destruct (frame_offsets sc Hready) as [HL HT].
  rewrite HL, HT, He. split; now apply sanitize_integral.
Qed.

Lemma assigned_integral_witness :
  integral (scrollTop (elements (frame (destructure 1 defaults)
                                   (scenario 100 (52 # 5) 520 150)) 0%nat)).
Proof.
  assert (R : ready (scenario 100 (52 # 5) 520 150) 0%nat bounds 520 150)
    by (repeat split).
  refine (proj2 (assigned_integral (destructure 1 defaults) R _ _ _)).
  - reflexivity.
  - exists 2000%Z. reflexivity.
  - exists 1000%Z. reflexivity.
Defined.

(** X5.  There is a position outside every gutter exactly when, on both
    axes, the edge of the first gutter as the code computes it is not
    beyond the edge of the second: [edgeLeft <= edgeRight] and
    [edgeTop <= edgeBottom].  Otherwise every pointer position is in a
    gutter, and every frame that has its four cells writes both offsets. *)
Theorem dead_center_iff (parentRect : DOMRect.t) (size : Q) :
  (exists x y, anyEdge parentRect size x y = false) <->
  edgeLeft parentRect size <= edgeRight parentRect size /\
  edgeTop parentRect size <= edgeBottom parentRect size.
Proof.
  split.
  - intros (x & y & H). apply anyEdge_false in H. lra.
  - intros [Hw Hh].
    exists (edgeLeft parentRect size), (edgeTop parentRect size).
    apply anyEdge_false. lra.
Qed.

Lemma dead_center_iff_witness :
  exists x y, anyEdge bounds 50 x y = false.
Proof.
  apply (proj2 (dead_center_iff bounds 50)).
  split; vm_compute; intros H; discriminate H.
Defined.

(** ** The cells of an idle loop *)

Lemma armed_not_idle (sc : Scope) (w : World) : armed sc w -> ~ idle w.
Proof.
  intros [Hls _] [Hnil _]. rewrite Hls in Hnil. discriminate Hnil.
Qed.

Lemma Normal_inj {A : Type} (a b : A) (w w' : World) :
  Normal a w = Normal b w' -> w = w'.
Proof. intros H. now injection H. Qed.

Lemma pending_cleanup_dormant (pending : option Scope) (w w' : World) :
  looping pending w -> (idle w -> dormant w) ->
  match pending with
  | Some old => cleanupEnabled old
  | None => ret tt
  end w = Normal tt w' ->
  dormant w'.
Proof.
  intros Hloop Hd. destruct pending as [old |]; cbn in Hloop.
  - destruct (truthy_bool (enabled old)).
    + destruct (cleanupEnabled_armed Hloop)
        as (h & w1 & _ & E & _ & _ & _ & _ & Hr & _).
      rewrite E. intros H. apply Normal_inj in H. subst w'.
      unfold dormant. rewrite Hr. repeat split.
    + destruct (cleanupEnabled_idle old Hloop)
        as (w1 & E & _ & _ & _ & _ & Hr).
      rewrite E. intros H. apply Normal_inj in H. subst w'.
      unfold dormant. rewrite Hr. repeat split.
  - intros H. apply Normal_inj in H. subst w'. now apply Hd.
Qed.

(** Enabling an idle loop: the two listeners, one waiting callback, its
    handle in [handleRef], and no other cell touched. *)
Lemma effectEnabled_arms (sc : Scope) (w : World) :
  idle w -> (0 <= frameId (window w))%Z ->
  truthy_bool (enabled sc) = true ->
  exists w',
    effectEnabled sc w = Normal tt w' /\
    armed sc w' /\
    refs w' = refs (rescheduled sc w) /\
    elements w' = elements w /\
    fiber w' = fiber w /\
    log w' = log w ++ [AddEventListener mousemove (render sc);
                       AddEventListener touchmove (render sc);
                       RequestAnimationFrame (frameId (window w) + 1)].
Proof.
  destruct w as [el0 [hr pr prr px py] [fid frs] ls fb lg].
  unfold idle, armed, effectEnabled. cbn.
  intros (-> & ->) Hf ->. unfold bind. cbn.
  eexists. split; [reflexivity |]. cbn.
  split; [split; [reflexivity |] |].
  - exists (fid + 1)%Z. repeat split; lia.
  - repeat split. now rewrite <- !app_assoc.
Qed.

Section Settled.

Variable getScrollParent : ElemId -> ElemId.

Lemma useAutoScroll_dormant (o : Options.t) (w w' : World) :
  settled w -> unmounted (fiber w) = false ->
  useAutoScroll getScrollParent o w = Normal tt w' ->
  idle w' -> dormant w'.
Proof.
  intros [(Hf & Hloop & Hfb) Hd] Hum.
  unfold useAutoScroll, bind, gets.
  set (sc := destructure (S (renders (fiber w))) o).
  destruct (changed same_enabled (depsEnabled (fiber w)) (enabled sc)).
  - destruct (@pending_cleanup _ _ Hloop)
      as (w1 & E1 & [Hl1 Hw1] & Hq1 & Hfb1 & Hid1).
    pose proof (pending_cleanup_dormant _ Hloop Hd E1) as (Hh1 & Hx1 & Hy1).
    rewrite E1.
    destruct (reference_step getScrollParent
                (changed same_reference (depsReference (fiber w))
                   (reference sc)) sc w1) as (r & E2 & Hr & Hx & Hy).
    rewrite E2.
    destruct (truthy_bool (enabled sc)) eqn:Hen.
    + destruct (@effectEnabled_arms sc (set_refs r w1))
        as (w3 & E3 & Harm & _);
        [split; assumption | cbn; lia | exact Hen |].
      rewrite E3. intros H. apply Normal_inj in H. subst w'.
      intros Hidle. exfalso. apply (armed_not_idle Harm). exact Hidle.
    + unfold effectEnabled. rewrite Hen.
      intros H. apply Normal_inj in H. subst w'. intros _.
      unfold dormant. cbn. rewrite Hr, Hx, Hy. auto.
  - destruct (reference_step getScrollParent
                (changed same_reference (depsReference (fiber w))
                   (reference sc)) sc w) as (r & E2 & Hr & Hx & Hy).
    cbv beta iota. unfold ret at 1. rewrite E2. unfold ret at 1.
    intros H. apply Normal_inj in H. subst w'. intros Hidle.
    destruct (Hd Hidle) as (Hh0 & Hx0 & Hy0).
    unfold dormant. cbn. rewrite Hr, Hx, Hy. auto.
Qed.

Lemma unmount_dormant (w w' : World) :
  settled w -> unmount w = Normal tt w' -> dormant w'.
Proof.
  intros [(Hf & Hloop & Hfb) Hd]. unfold unmount, bind, gets.
  destruct (@pending_cleanup _ _ Hloop) as (w1 & E1 & _).
  pose proof (pending_cleanup_dormant _ Hloop Hd E1) as Hd1.
  rewrite E1. intros H. apply Normal_inj in H. subst w'. exact Hd1.
Qed.

Lemma step_settled (w : World) (ev : Event) :
  settled w -> settled (step getScrollParent w ev).
Proof.
  intros Hs. pose proof Hs as [Hc Hd].
  split; [now apply step_consistent |].
  destruct ev as [o | | | e | e]; cbn.
  - destruct (unmounted (fiber w)) eqn:Hum; [exact Hd |].
    destruct (useAutoScroll_consistent getScrollParent o Hc Hum)
      as (w' & E & _).
    unfold report. rewrite E. now apply (@useAutoScroll_dormant o w w' Hs Hum E).
  - destruct (unmounted (fiber w)) eqn:Hum; [exact Hd |].
    destruct (unmount_consistent Hc) as (w' & E & _).
    unfold report. rewrite E. intros _. now apply (@unmount_dormant w w' Hs E).
  - pose proof Hc as (Hf & Hloop & Hfb).
    destruct (cleanup (fiber w)) as [sc |] eqn:Hcl;
      [| now rewrite (animationFrame_idle Hloop)].
    unfold looping in Hloop.
    destruct (truthy_bool (enabled sc)) eqn:Hen;
      [| now rewrite (animationFrame_idle Hloop)].
    destruct (animationFrame_armed Hloop) as (w' & -> & Harm & _).
    intros Hidle. exfalso. exact (armed_not_idle Harm Hidle).
  - destruct (@dispatch_refs mousemove _ (handleMouseMove_refs e) w)
      as (r & added & E & Hr & _).
    intros Hidle. rewrite E in Hidle.
    assert (Hi : idle w) by exact Hidle.
    unfold dispatch. destruct Hi as [-> _]. now apply Hd.
  - destruct (@dispatch_refs touchmove _ (handleTouchMove_refs e) w)
      as (r & added & E & Hr & _).
    intros Hidle. rewrite E in Hidle.
    assert (Hi : idle w) by exact Hidle.
    unfold dispatch. destruct Hi as [-> _]. now apply Hd.
Qed.

Lemma run_settled (evs : list Event) (w : World) :
  settled w -> settled (run getScrollParent evs w).
Proof.
  revert w. induction evs as [| ev evs IH]; intros w Hs; cbn; [exact Hs |].
  apply IH. now apply step_settled.
Qed.

Lemma initial_settled (els : ElemId -> Element) : settled (initial els).
Proof.
  split; [apply initial_consistent |]. intros _. repeat split.
Qed.

End Settled.

(** ** The state of the loop *)

Section Machine.

Variable getScrollParent : ElemId -> ElemId.

Lemma truthy_bool_true (e : option bool) :
  truthy_bool e = true -> e = Some true.
Proof. destruct e as [[] |]; cbn; intros H; try discriminate H; auto. Qed.

(** X6.  In every world the event loop reaches, the listeners and the
    pointer cells are in one of two states.  While the hook is mounted and
    [enabled] is true: exactly the two listeners of one render, whose
    [enabled] is true.  Otherwise: no listener, and the pointer position is
    [null]. *)
Theorem listener_invariant (els : ElemId -> Element) (evs : list Event) :
  let w := run getScrollParent evs (initial els) in
  if enabledNow w
  then exists sc,
         enabled sc = Some true /\
         listeners w = [(mousemove, render sc); (touchmove, render sc)]
  else listeners w = [] /\
       positionXRef (refs w) = None /\ positionYRef (refs w) = None.
Proof.
  intros w.
  assert (Hs : settled w) by (apply run_settled, initial_settled).
  destruct Hs as [(Hf & Hloop & Hfb) Hd]. unfold enabledNow.
  assert (Hidle : idle w ->
    listeners w = [] /\
    positionXRef (refs w) = None /\ positionYRef (refs w) = None).
  { intros Hi. destruct (Hd Hi) as (? & ? & ?). destruct Hi. auto. }
  destruct (cleanup (fiber w)) as [sc |] eqn:Hcl.
  - destruct Hfb as [-> ->]. cbn. unfold looping in Hloop.
    destruct (truthy_bool (enabled sc)) eqn:Hen; [| now apply Hidle].
    destruct Hloop as (Hls & _).
    exists sc. auto using truthy_bool_true.
  - cbn in Hloop. destruct (unmounted (fiber w)); cbn; [now apply Hidle |].
    rewrite Hfb by reflexivity. now apply Hidle.
Qed.

Lemma same_enabled_refl (e : option bool) : same_enabled e e = true.
Proof. now destruct e as [[] |]. Qed.

(** X7.  A render that does not change [enabled] leaves the loop alone,
    whatever else the options say: the callback that is waiting, with the
    options of the render that enabled the loop, the listeners, the log,
    the elements and the three cells of the loop are what they were. *)
Theorem stale_options (o : Options.t) (w : World) :
  unmounted (fiber w) = false ->
  depsEnabled (fiber w) = Some (Options.enabled o) ->
  let w' := step getScrollParent w (Render o) in
  window w' = window w /\
  listeners w' = listeners w /\
  log w' = log w /\
  elements w' = elements w /\
  handleRef (refs w') = handleRef (refs w) /\
  positionXRef (refs w') = positionXRef (refs w) /\
  positionYRef (refs w') = positionYRef (refs w) /\
  cleanup (fiber w') = cleanup (fiber w).
Proof.
  intros Hum Hde w'.
  set (sc := destructure (S (renders (fiber w))) o).
  destruct (reference_step getScrollParent
              (changed same_reference (depsReference (fiber w))
                 (reference sc)) sc w) as (r & E & Hr & Hx & Hy).
  assert (E' : exists fb, w' = set_fiber fb (set_refs r w) /\
                          cleanup fb = cleanup (fiber w)).
  { eexists. unfold w', step. rewrite Hum.
    unfold report, useAutoScroll, bind, gets. rewrite Hde. cbn [changed].
    fold sc. change (enabled sc) with (Options.enabled o).
    rewrite same_enabled_refl. cbn [negb]. unfold ret at 1.
    rewrite E. unfold ret at 1. cbn. split; reflexivity. }
  destruct E' as (fb & -> & Hcl). cbn. repeat split; assumption.
Qed.

(** The frame of an armed loop one of whose cells is not set. *)
Lemma armed_frame_unready (sc : Scope) (w : World) :
  armed sc w ->
  parentRef (refs w) = None \/ parentRectRef (refs w) = None \/
  positionXRef (refs w) = None \/ positionYRef (refs w) = None ->
  elements (animationFrame w) = elements w /\
  scrolls (animationFrame w) = scrolls w.
Proof.
  intros (_ & h & _ & Hfr & _) Hnull.
  unfold animationFrame, runFrame. rewrite Hfr. cbn.
  rewrite Hfr. cbn. rewrite Z.eqb_refl. cbn.
  unfold report. rewrite checkScroll_not_ready by exact Hnull.
  rewrite checkStep_rescheduled. cbn. split; [reflexivity |].
  unfold scrolls. cbn. now rewrite filter_app, app_nil_r.
Qed.

(** X8.  Enabling starts afresh.  A render that enables the loop arms it
    with the options of that very render and leaves the pointer position
    unknown, whatever pointer events came before; nothing is scrolled, and
    the frame that follows, should no pointer event come first, scrolls
    nothing either. *)
Theorem enabling_starts_fresh (els : ElemId -> Element) (evs : list Event)
  (o : Options.t) :
  let w := run getScrollParent evs (initial els) in
  let w' := step getScrollParent w (Render o) in
  let w'' := step getScrollParent w' AnimationFrame in
  unmounted (fiber w) = false ->
  enabledNow w = false ->
  truthy_bool (Options.enabled o) = true ->
  armed (destructure (S (renders (fiber w))) o) w' /\
  positionXRef (refs w') = None /\
  positionYRef (refs w') = None /\
  elements w' = elements w /\
  scrolls w' = scrolls w /\
  elements w'' = elements w' /\
  scrolls w'' = scrolls w'.
Proof.
  intros w w' w'' Hum Hoff Hon.
  assert (Hs : settled w) by (apply run_settled, initial_settled).
  destruct Hs as [Hc Hd]. pose proof Hc as (Hf & Hloop & Hfb).
  set (sc := destructure (S (renders (fiber w))) o).
  assert (Hen : truthy_bool (enabled sc) = true) by exact Hon.
  unfold enabledNow in Hoff. rewrite Hum in Hoff. cbn in Hoff.
  assert (Hidle : idle w).
  { destruct (cleanup (fiber w)) as [old |]; [| exact Hloop].
    destruct Hfb as [_ Hde]. rewrite Hde in Hoff.
    unfold looping in Hloop. now rewrite Hoff in Hloop. }
  assert (Hch : changed same_enabled (depsEnabled (fiber w)) (enabled sc)
                = true).
  { destruct (depsEnabled (fiber w)) as [e |]; [| reflexivity].
    unfold changed. change (enabled sc) with (Options.enabled o).
    rewrite (truthy_bool_true _ Hon).
    destruct e as [[] |]; [discriminate Hoff | reflexivity | reflexivity]. }
  destruct (@pending_cleanup _ _ Hloop)
    as (w1 & E1 & [Hl1 Hw1] & Hq1 & Hfb1 & Hid1).
  pose proof (pending_cleanup_dormant _ Hloop Hd E1) as (Hh1 & Hx1 & Hy1).
  destruct (reference_step getScrollParent
              (changed same_reference (depsReference (fiber w))
                 (reference sc)) sc w1) as (r & E2 & Hr & Hx & Hy).
  destruct (@effectEnabled_arms sc (set_refs r w1))
    as (w3 & E3 & Harm & Hr3 & Hel3 & Hfb3 & Hlog3);
    [split; assumption | cbn; lia | exact Hen |].
  assert (E : exists fb, w' = set_fiber fb w3).
  { eexists. unfold w', step. rewrite Hum.
    unfold report, useAutoScroll, bind, gets. fold sc.
    rewrite Hch, E1, E2, E3. reflexivity. }
  destruct E as (fb & E).
  assert (Harm' : armed sc w') by (rewrite E; exact Harm).
  assert (Hx' : positionXRef (refs w') = None)
    by (rewrite E; cbn; rewrite Hr3; cbn; now rewrite Hx).
  assert (Hy' : positionYRef (refs w') = None)
    by (rewrite E; cbn; rewrite Hr3; cbn; now rewrite Hy).
  assert (Hq : quietly w w').
  { apply (quietly_trans Hq1). rewrite E. split; [exact Hel3 |].
    eexists. split; [exact Hlog3 | reflexivity]. }
  split; [exact Harm' |]. split; [exact Hx' |]. split; [exact Hy' |].
  split; [apply Hq |]. split; [now apply quietly_scrolls |].
  exact (armed_frame_unready Harm' (or_intror (or_intror (or_introl Hx')))).
Qed.

(** X9.  Between two frames only the last pointer event counts: a mouse
    move followed by another leaves the world the second one alone
    leaves. *)
Theorem last_move_wins (els : ElemId -> Element) (evs : list Event)
  (e1 e2 : MouseEvent.t) :
  let w := run getScrollParent evs (initial els) in
  step getScrollParent (step getScrollParent w (MouseMove e1)) (MouseMove e2)
  = step getScrollParent w (MouseMove e2).
Proof.
  intros w.
  assert (Hc : consistent w) by (apply run_consistent, initial_consistent).
  destruct Hc as (_ & Hloop & _).
  assert (H : idle w \/ exists sc, armed sc w).
  { destruct (cleanup (fiber w)) as [sc |]; [| now left].
    unfold looping in Hloop.
    destruct (truthy_bool (enabled sc)); [right; now exists sc | now left]. }
  unfold step, dispatch.
  destruct H as [[Hls _] | (sc & Hls & _)].
  - rewrite Hls. cbn. now rewrite Hls.
  - rewrite Hls. cbn. rewrite Hls. cbn. reflexivity.
Qed.

(** X10.  A touch move counts as a mouse move at its first target touch:
    the other touches of the event change nothing. *)
Theorem touch_as_mouse (els : ElemId -> Element) (evs : list Event)
  (touch : Touch.t) (rest : list Touch.t) :
  let w := run getScrollParent evs (initial els) in
  step getScrollParent w
    (TouchMove {| TouchEvent.targetTouches := touch :: rest |})
  = step getScrollParent w
      (MouseMove {| MouseEvent.clientX := Touch.clientX touch;
                    MouseEvent.clientY := Touch.clientY touch |}).
Proof.
  intros w.
  assert (Hc : consistent w) by (apply run_consistent, initial_consistent).
  destruct Hc as (_ & Hloop & _).
  assert (H : idle w \/ exists sc, armed sc w).
  { destruct (cleanup (fiber w)) as [sc |]; [| now left].
    unfold looping in Hloop.
    destruct (truthy_bool (enabled sc)); [right; now exists sc | now left]. }
  unfold step, dispatch.
  destruct H as [[Hls _] | (sc & Hls & _)]; rewrite Hls; reflexivity.
Qed.

(** ** The scroll target *)

Lemma fold_keeps {X A : Type} (part : World -> X)
  (f : World -> A -> World) (l : list A) :
  (forall w a, part (f w a) = part w) ->
  forall w, part (fold_left f l w) = part w.
Proof.
  intros Hf. induction l as [| a l IH]; intros w; cbn; [reflexivity |].
  now rewrite IH.
Qed.

Lemma cleanupEnabled_keeps_target (sc : Scope) :
  keeps target (cleanupEnabled sc).
Proof.
  intros w. unfold cleanupEnabled, bind, gets.
  destruct (handleRef (refs w)) as [h |];
    [destruct (truthy_number h) |]; reflexivity.
Qed.

Lemma effectEnabled_keeps_target (sc : Scope) :
  keeps target (effectEnabled sc).
Proof.
  intros w. unfold effectEnabled.
  destruct (truthy_bool (enabled sc)); [| reflexivity].
  unfold bind, addEventListener, modify, tell, bind, modify. cbn.
  destruct (existsb (same_listener mousemove (render sc)) (listeners w)); cbn;
    match goal with
    | |- context [existsb ?f ?l] => destruct (existsb f l)
    end; reflexivity.
Qed.

Lemma checkScroll_keeps_target (sc : Scope) : keeps target (checkScroll sc).
Proof.
  intros w. destruct (checkScroll_turns sc w) as (w' & E & Hrefs & _).
  rewrite E. unfold target. cbn. now rewrite Hrefs.
Qed.

Lemma handleMouseMove_keeps_target (e : MouseEvent.t) :
  keeps target (handleMouseMove e).
Proof. intros w. reflexivity. Qed.

Lemma handleTouchMove_keeps_target (e : TouchEvent.t) :
  keeps target (handleTouchMove e).
Proof. intros w. destruct e as [[| touch rest]]; reflexivity. Qed.

Lemma same_reference_refl (r : option ElemId) : same_reference r r = true.
Proof. destruct r; cbn; [apply Nat.eqb_refl | reflexivity]. Qed.

Lemma bind_keeps_at {X A B : Type} (part : World -> X) (m : JS A)
  (k : A -> JS B) (w : World) :
  part (world_of (m w)) = part w ->
  (forall a w1, m w = Normal a w1 -> part (world_of (k a w1)) = part w1) ->
  part (world_of (bind m k w)) = part w.
Proof.
  intros Hm Hk. unfold bind.
  destruct (m w) as [a w1 | e w1] eqn:E; cbn in *; [| exact Hm].
  rewrite (Hk a w1 eq_refl). exact Hm.
Qed.

Lemma pending_keeps_target (c : bool) (pending : option Scope) :
  keeps target (if c
                then match pending with
                     | Some old => cleanupEnabled old
                     | None => ret tt
                     end
                else ret tt).
Proof.
  destruct c; [destruct pending |]; intros w;
    [apply cleanupEnabled_keeps_target | reflexivity | reflexivity].
Qed.

Lemma useAutoScroll_keeps_target (o : Options.t) (w : World) :
  Options.reference o = None \/
  depsReference (fiber w) = Some (Options.reference o) ->
  target (world_of (useAutoScroll getScrollParent o w)) = target w.
Proof.
  intros Hev. unfold useAutoScroll.
  apply bind_keeps_at; [reflexivity |].
  intros fb w0 E. unfold gets in E. injection E as <- <-.
  set (sc := destructure (S (renders (fiber w))) o).
  apply bind_keeps_at; [apply pending_keeps_target |]. intros _ w1 _.
  apply bind_keeps_at.
  - destruct Hev as [Hnone | Hsame].
    + unfold effectReference. change (reference sc) with (Options.reference o).
      rewrite Hnone.
      now destruct (changed same_reference (depsReference (fiber w)) None).
    + rewrite Hsame. cbn [changed].
      change (reference sc) with (Options.reference o).
      now rewrite same_reference_refl.
  - intros _ w2 _. apply bind_keeps_at; [| reflexivity].
    destruct (changed same_enabled (depsEnabled (fiber w)) (enabled sc));
      [apply effectEnabled_keeps_target | reflexivity].
Qed.

Lemma unmount_keeps_target : keeps target unmount.
Proof.
  intros w. unfold unmount.
  apply bind_keeps_at; [reflexivity |].
  intros fb w0 E. unfold gets in E. injection E as <- <-.
  apply bind_keeps_at; [| reflexivity].
  destruct (cleanup (fiber w));
    [apply cleanupEnabled_keeps_target | reflexivity].
Qed.

(** X11.  The scroll target and its rectangle are cached: no frame, no
    pointer event, no unmounting and no render whose [reference] is [null]
    or the one of the last render changes them.  In particular the
    clean-up does not reset them and the rectangle is never measured
    again. *)
Theorem target_cached (w : World) (ev : Event) :
  match ev with
  | Render o =>
      Options.reference o = None \/
      depsReference (fiber w) = Some (Options.reference o)
  | _ => True
  end ->
  target (step getScrollParent w ev) = target w.
Proof.
  assert (Hlog : forall l w0, target (set_log l w0) = target w0)
    by reflexivity.
  assert (Hreport : forall task w0,
            target (world_of (task w0)) = target w0 ->
            target (report task w0) = target w0).
  { intros task w0 H. unfold report.
    destruct (task w0); cbn in *; [exact H | now rewrite Hlog]. }
  destruct ev as [o | | | e | e]; cbn; intros Hev.
  - destruct (unmounted (fiber w)); [reflexivity |].
    apply Hreport. now apply useAutoScroll_keeps_target.
  - destruct (unmounted (fiber w)); [reflexivity |].
    apply Hreport, unmount_keeps_target.
  - unfold animationFrame. apply fold_keeps. intros w0 hc. unfold runFrame.
    destruct (existsb _ _); [| reflexivity].
    rewrite Hreport; [reflexivity | apply checkScroll_keeps_target].
  - unfold dispatch. apply fold_keeps. intros w0 l.
    destruct (EventType_eqb _ _); [| reflexivity].
    apply Hreport, handleMouseMove_keeps_target.
  - unfold dispatch. apply fold_keeps. intros w0 l.
    destruct (EventType_eqb _ _); [| reflexivity].
    apply Hreport, handleTouchMove_keeps_target.
Qed.

Lemma same_reference_eq (a b : option ElemId) :
  same_reference a b = true -> a = b.
Proof.
  destruct a, b; cbn; intros H; try discriminate H; [| reflexivity].
  apply Nat.eqb_eq in H. now subst.
Qed.

Lemma cleanupEnabled_elements (sc : Scope) (w : World) :
  exists w1, cleanupEnabled sc w = Normal tt w1 /\ elements w1 = elements w.
Proof.
  unfold cleanupEnabled, bind, gets.
  destruct (handleRef (refs w)) as [h |];
    [destruct (truthy_number h) |]; eexists; split; reflexivity.
Qed.

(** X12.  A render whose [reference] is an element other than the one of
    the last render resolves the target anew: the scroll parent of the
    reference, with the rectangle it has at that moment. *)
Theorem target_resolved (w : World) (o : Options.t) (el : ElemId) :
  unmounted (fiber w) = false ->
  Options.reference o = Some el ->
  depsReference (fiber w) <> Some (Some el) ->
  target (step getScrollParent w (Render o)) =
    (Some (getScrollParent el),
     Some (boundingClientRect (elements w (getScrollParent el)))).
Proof.
  intros Hum Hre Hne. cbn. rewrite Hum.
  assert (Hreport : forall task w0,
            target (report task w0) = target (world_of (task w0))).
  { intros task w0. unfold report. now destruct (task w0). }
  rewrite Hreport. unfold useAutoScroll, bind at 1, gets at 1.
  set (sc := destructure (S (renders (fiber w))) o).
  assert (Hch : changed same_reference (depsReference (fiber w))
                  (reference sc) = true).
  { change (reference sc) with (Options.reference o). rewrite Hre.
    destruct (depsReference (fiber w)) as [r |] eqn:Hr; [| reflexivity].
    cbn. apply negb_true_iff.
    destruct (same_reference r (Some el)) eqn:Hs; [| reflexivity].
    apply same_reference_eq in Hs. subst r. now contradiction Hne. }
  rewrite Hch.
  assert (E1 : exists w1,
    (if changed same_enabled (depsEnabled (fiber w)) (enabled sc)
     then match cleanup (fiber w) with
          | Some old => cleanupEnabled old
          | None => ret tt
          end
     else ret tt) w = Normal tt w1 /\ elements w1 = elements w).
  { destruct (changed same_enabled _ _);
      [destruct (cleanup (fiber w)) as [old |] |];
      [apply cleanupEnabled_elements | |]; exists w; split; reflexivity. }
  destruct E1 as (w1 & E1 & Hel).
  unfold bind at 1. rewrite E1.
  unfold bind at 1, effectReference.
  change (reference sc) with (Options.reference o). rewrite Hre. cbn.
  match goal with
  | |- target (world_of (bind ?m ?k ?w2)) = _ =>
      rewrite (@bind_keeps_at _ _ _ target m k w2)
  end.
  - unfold target. cbn. now rewrite Hel.
  - destruct (changed same_enabled _ _);
      [apply effectEnabled_keeps_target | reflexivity].
  - reflexivity.
Qed.

(** X13.  The call of [onScroll] is not guarded.  In a gutter the frame
    first assigns both offsets; [onScroll] is called in the world that
    leaves, in which nothing else has changed.  When the call throws, the
    exception leaves [checkScroll] with line 75 not reached: no callback is
    requested and the world is the one the call left.  When the call
    returns, the frame reschedules itself in whatever world the call left,
    be it one in which the loop has been torn down.  [checkScroll] is the
    case of a call that is recorded and returns. *)
Theorem callback_unguarded (call : Callback -> Q -> Q -> JS unit)
  (sc : Scope) (w : World) :
  checkScroll sc w =
    checkScrollCalling (fun f x y => tell (OnScroll f x y)) sc w /\
  forall (parent : ElemId) (parentRect : DOMRect.t) (x y : Q),
    ready w parent parentRect x y ->
    anyEdge parentRect (size sc) x y = true ->
    let e := elements w parent in
    let vL := sanitize (nextScrollLeft parentRect (size sc) (intensity sc)
                          (scrollLeft e) x) (scrollWidth e) in
    let vT := sanitize (nextScrollTop parentRect (size sc) (intensity sc)
                          (scrollTop e) y) (scrollHeight e) in
    exists w1,
      log w1 = log w ++ [SetScrollLeft parent vL; SetScrollTop parent vT] /\
      refs w1 = refs w /\
      window w1 = window w /\
      listeners w1 = listeners w /\
      fiber w1 = fiber w /\
      checkScrollCalling call sc w =
        match call (onScroll sc) x y w1 with
        | Normal _ w2 => Normal tt (rescheduled sc w2)
        | Throw e w2 => Throw e w2
        end.
Proof.
  split; [reflexivity |].
  intros parent parentRect x y (Hp & Hr & Hx & Hy) He e vL vT.
  unfold checkScrollCalling, bind, gets. rewrite Hp, Hr, Hx, Hy.
  replace (negb (isEdgeBottom parentRect (size sc) y)
           && negb (isEdgeLeft parentRect (size sc) x)
           && negb (isEdgeRight parentRect (size sc) x)
           && negb (isEdgeTop parentRect (size sc) y))
    with (negb (anyEdge parentRect (size sc) x y))
    by (unfold anyEdge; now rewrite !negb_orb).
  rewrite He. cbn [negb].
  eexists. split; [| split; [| split; [| split; [| split]]]];
    [| | | | | reflexivity]; cbn.
  - unfold update. rewrite Nat.eqb_refl. cbn. now rewrite <- !app_assoc.
  - reflexivity.
  - reflexivity.
  - reflexivity.
  - reflexivity.
Qed.

End Machine.

(** ** The ends of the range *)





(** ** What is written to the DOM *)

Lemma confined_refl (w : World) : confined w w.
Proof. split; [reflexivity |]. intros el. auto. Qed.

Lemma confined_trans (w1 w2 w3 : World) :
  confined w1 w2 -> confined w2 w3 -> confined w1 w3.
Proof.
  intros [P12 H12] [P23 H23]. split; [now rewrite P23 |].
  intros el. destruct (H12 el) as (W1 & H1 & R1 & E1).
  destruct (H23 el) as (W2 & H2 & R2 & E2).
  rewrite W2, H2, R2. repeat split; try assumption.
  intros Hne. rewrite E2 by (now rewrite P12). now apply E1.
Qed.

Lemma checkScroll_confined (sc : Scope) (w : World) :
  exists w', checkScroll sc w = Normal tt w' /\ confined w w'.
Proof.
  assert (Hstep : checkScroll sc w = checkStep sc w ->
                  exists w', checkScroll sc w = Normal tt w' /\ confined w w').
  { intros E. exists (rescheduled sc w). rewrite E, checkStep_rescheduled.
    split; [reflexivity |]. split; [reflexivity |]. intros el. cbn. auto. }
  destruct (parentRef (refs w)) as [parent |] eqn:Hp;
    [| apply Hstep, checkScroll_not_ready; auto].
  destruct (parentRectRef (refs w)) as [parentRect |] eqn:Hr;
    [| apply Hstep, checkScroll_not_ready; auto].
  destruct (positionXRef (refs w)) as [x |] eqn:Hx;
    [| apply Hstep, checkScroll_not_ready; auto].
  destruct (positionYRef (refs w)) as [y |] eqn:Hy;
    [| apply Hstep, checkScroll_not_ready; auto].
  assert (Hready : ready w parent parentRect x y) by (repeat split; assumption).
  destruct (anyEdge parentRect (size sc) x y) eqn:He;
    [| apply Hstep; now apply (checkScroll_outside sc Hready)].
  destruct (checkScroll_inside sc Hready He)
    as (w' & Hrun & _ & Hel & Hother & Hrefs & _).
  exists w'. split; [exact Hrun |]. split.
  - rewrite Hrefs. reflexivity.
  - intros el. rewrite Hp. destruct (Nat.eq_dec el parent) as [-> | Hne].
    + rewrite Hel. cbn. repeat split. intros Hc. now contradiction Hc.
    + rewrite (Hother el Hne). auto.
Qed.

Lemma cleanupEnabled_keeps_elements (sc : Scope) :
  keeps elements (cleanupEnabled sc).
Proof.
  intros w. unfold cleanupEnabled, bind, gets.
  destruct (handleRef (refs w)) as [h |];
    [destruct (truthy_number h) |]; reflexivity.
Qed.

Lemma effectEnabled_keeps_elements (sc : Scope) :
  keeps elements (effectEnabled sc).
Proof.
  intros w. unfold effectEnabled.
  destruct (truthy_bool (enabled sc)); [| reflexivity].
  unfold bind, addEventListener, modify, tell, bind, modify. cbn.
  destruct (existsb (same_listener mousemove (render sc)) (listeners w)); cbn;
    match goal with
    | |- context [existsb ?f ?l] => destruct (existsb f l)
    end; reflexivity.
Qed.

Section Written.

Variable getScrollParent : ElemId -> ElemId.

Lemma effectReference_keeps_elements (sc : Scope) :
  keeps elements (effectReference getScrollParent sc).
Proof.
  intros w. unfold effectReference. destruct (reference sc); reflexivity.
Qed.

Lemma useAutoScroll_keeps_elements (o : Options.t) :
  keeps elements (useAutoScroll getScrollParent o).
Proof.
  intros w. unfold useAutoScroll.
  apply bind_keeps_at; [reflexivity |].
  intros fb w0 E. unfold gets in E. injection E as <- <-.
  set (sc := destructure (S (renders (fiber w))) o).
  apply bind_keeps_at.
  { destruct (changed same_enabled _ _); [| reflexivity].
    destruct (cleanup (fiber w));
      [apply cleanupEnabled_keeps_elements | reflexivity]. }
  intros _ w1 _. apply bind_keeps_at.
  { destruct (changed same_reference _ _);
      [apply effectReference_keeps_elements | reflexivity]. }
  intros _ w2 _. apply bind_keeps_at; [| reflexivity].
  destruct (changed same_enabled _ _);
    [apply effectEnabled_keeps_elements | reflexivity].
Qed.

Lemma unmount_keeps_elements : keeps elements unmount.
Proof.
  intros w. unfold unmount.
  apply bind_keeps_at; [reflexivity |].
  intros fb w0 E. unfold gets in E. injection E as <- <-.
  apply bind_keeps_at; [| reflexivity].
  destruct (cleanup (fiber w));
    [apply cleanupEnabled_keeps_elements | reflexivity].
Qed.

Lemma report_elements (task : JS unit) (w : World) :
  elements (report task w) = elements (world_of (task w)).
Proof. unfold report. now destruct (task w). Qed.

Lemma animationFrame_confined (w : World) : confined w (animationFrame w).
Proof.
  unfold animationFrame. generalize (frames (window w)) as l.
  intros l. generalize (confined_refl w). generalize w at 2 4 as v.
  induction l as [| hc l IH]; intros v Hv; cbn; [exact Hv |].
  apply IH. apply (confined_trans Hv). unfold runFrame.
  destruct (existsb _ _); [| apply confined_refl].
  match goal with |- confined _ (report _ ?v0) =>
    destruct (checkScroll_confined (snd hc) v0) as (v' & E & Hc)
  end.
  unfold report. rewrite E. exact Hc.
Qed.

(** X15.  The hook writes nothing to the DOM but the two scroll offsets of
    its scroll target, and only in a frame: a render, the unmounting and a
    pointer event leave every element as it is; a frame leaves every
    element other than the target as it is, and of the target the scroll
    extents and the rectangle. *)
Theorem only_target_scrolls (w : World) (ev : Event) :
  (ev <> AnimationFrame ->
   elements (step getScrollParent w ev) = elements w) /\
  (forall el,
     scrollWidth (elements (step getScrollParent w ev) el)
       = scrollWidth (elements w el) /\
     scrollHeight (elements (step getScrollParent w ev) el)
       = scrollHeight (elements w el) /\
     boundingClientRect (elements (step getScrollParent w ev) el)
       = boundingClientRect (elements w el) /\
     (parentRef (refs w) <> Some el ->
      elements (step getScrollParent w ev) el = elements w el)).
Proof.
  assert (Hkeep : ev <> AnimationFrame ->
                  elements (step getScrollParent w ev) = elements w).
  { intros Hne. destruct ev as [o | | | e | e]; cbn.
    - destruct (unmounted (fiber w)); [reflexivity |].
      rewrite report_elements. apply useAutoScroll_keeps_elements.
    - destruct (unmounted (fiber w)); [reflexivity |].
      rewrite report_elements. apply unmount_keeps_elements.
    - now contradiction Hne.
    - unfold dispatch. apply fold_keeps. intros w0 l.
      destruct (EventType_eqb _ _); [| reflexivity].
      now rewrite report_elements.
    - unfold dispatch. apply fold_keeps. intros w0 l.
      destruct (EventType_eqb _ _); [| reflexivity].
      rewrite report_elements. now destruct e as [[| t r]]. }
  split; [exact Hkeep |]. intros el.
  destruct ev as [o | | | e | e];
    try (rewrite Hkeep by discriminate; auto).
  apply (animationFrame_confined w).
Qed.

End Written.

(** ** Instances of the further properties *)

Lemma stale_options_witness :
  let w := run (fun el => el) mounting
             (initial (elements (scenario 100 40 0 0))) in
  let o := {| Options.enabled := Some true; Options.intensity := Some 1;
              Options.onScroll := None; Options.reference := Some 0%nat;
              Options.size := Some 10 |} in
  frames (window (step (fun el => el) w (Render o))) = frames (window w).
Proof.
  intros w o.
  refine (f_equal frames (proj1 (@stale_options (fun el => el) o w _ _)));
    reflexivity.
Defined.

Lemma enabling_starts_fresh_witness :
  let evs := [MouseMove {| MouseEvent.clientX := 520;
                           MouseEvent.clientY := 150 |}] in
  let w := run (fun el => el) evs
             (initial (elements (scenario 100 40 0 0))) in
  positionXRef (refs (step (fun el => el) w (Render defaults))) = None.
Proof.
  intros evs w.
  refine (proj1 (proj2 (@enabling_starts_fresh (fun el => el)
                          (elements (scenario 100 40 0 0)) evs defaults
                          _ _ _)));
    reflexivity.
Defined.

Lemma target_cached_witness :
  let w := run (fun el => el) mounting
             (initial (elements (scenario 100 40 0 0))) in
  target (step (fun el => el) w disabling) = target w.
Proof.
  intros w. apply (@target_cached (fun el => el) w disabling).
  right. reflexivity.
Defined.

Lemma target_resolved_witness :
  target (step (fun el => el) (initial (elements (scenario 100 40 0 0)))
            (Render defaults))
  = (Some 0%nat, Some bounds).
Proof.
  refine (@target_resolved (fun el => el)
            (initial (elements (scenario 100 40 0 0))) defaults 0%nat
            _ _ _).
  - reflexivity.
  - reflexivity.
  - cbn. intros H. discriminate H.
Defined.

Lemma only_target_scrolls_witness :
  let w := run (fun el => el) mounting
             (initial (elements (scenario 100 40 0 0))) in
  elements (step (fun el => el) w disabling) = elements w.
Proof.
  intros w. apply (@only_target_scrolls (fun el => el) w disabling).
  intros H. discriminate H.
Defined.

Lemma callback_unguarded_witness :
  exists w1,
    frames (window w1) = [] /\
    checkScrollCalling (fun _ _ _ => throw TypeError)
      (destructure 1 defaults) (scenario 100 40 520 150)
    = Throw TypeError w1.
Proof.
  assert (R : ready (scenario 100 40 520 150) 0%nat bounds 520 150)
    by (repeat split).
  assert (E : anyEdge bounds (size (destructure 1 defaults)) 520 150 = true)
    by reflexivity.
  destruct (proj2 (callback_unguarded (fun _ _ _ => throw TypeError)
                     (destructure 1 defaults) (scenario 100 40 520 150))
              _ _ _ _ R E)
    as (w1 & _ & _ & Hwin & _ & _ & Hrun).
  exists w1. split; [rewrite Hwin; reflexivity | exact Hrun].
Defined.
